(** * corpus_tools: the title matcher ([matcher.py])

    A shallow embedding of the matching engine of [matcher.py]: title
    normalisation ([Corpus.get_title]), index building
    ([Corpus.read_metatable]), candidate narrowing ([match_titles],
    [get_match]), the confidence filter ([filter_matches]) and the
    per-table loop of [main].

    Python values are modelled as follows.
    - [str]: [string], a character being a code point below 256.
    - [dict]: an association list in insertion order with unique keys
      (Python dicts iterate in insertion order).
    - [int] used as a counter or a length: [nat].
    - the float [num_terms_matched / title_len]: the exact rational, see
      [match_percent].
    - exceptions and mutation: a state-and-exception monad in which the
      state survives a raise.
    What the program prints is not modelled. *)

From Stdlib Require Import List Arith Lia Bool Ascii String QArith.
From Stdlib Require Import DecimalString DecimalNat.
From Equations Require Import Equations.
Import ListNotations.

Close Scope Q_scope.
Open Scope string_scope.
Open Scope list_scope.
Open Scope nat_scope.

(** ** Python string primitives *)

Module PyStr.

(** [str.isspace] on one character, for code points below 256. *)
Definition is_space (c : ascii) : bool :=
  let n := nat_of_ascii c in
  ((9 <=? n) && (n <=? 13)) || ((28 <=? n) && (n <=? 32))
  || (n =? 133) || (n =? 160).

(** [str.lower] on one character, for code points below 256. *)
Definition lower_char (c : ascii) : ascii :=
  let n := nat_of_ascii c in
  if ((65 <=? n) && (n <=? 90))
     || ((192 <=? n) && (n <=? 214))
     || ((216 <=? n) && (n <=? 222))
  then ascii_of_nat (n + 32) else c.

Fixpoint lower (s : string) : string :=
  match s with
  | EmptyString => EmptyString
  | String c s' => String (lower_char c) (lower s')
  end.

(** Cut [s] at every character satisfying [p]; empty pieces are kept, so
    the result is never the empty list. *)
Fixpoint split_by (p : ascii -> bool) (s : string) : list string :=
  match s with
  | EmptyString => [EmptyString]
  | String c s' =>
      if p c then EmptyString :: split_by p s'
      else match split_by p s' with
           | [] => [String c EmptyString]
           | w :: ws => String c w :: ws
           end
  end.

(** [s.split(sep)] for a one-character separator. *)
Definition split_on (sep : ascii) (s : string) : list string :=
  split_by (Ascii.eqb sep) s.

Definition nonempty (s : string) : bool :=
  match s with EmptyString => false | _ => true end.

(** [s.split()]: the maximal runs of non-whitespace characters. *)
Definition split (s : string) : list string :=
  filter nonempty (split_by is_space s).

Definition mem_char (c : ascii) (cs : list ascii) : bool :=
  existsb (Ascii.eqb c) cs.

Fixpoint lstrip (cs : list ascii) (s : string) : string :=
  match s with
  | EmptyString => EmptyString
  | String c s' => if mem_char c cs then lstrip cs s' else s
  end.

Fixpoint rstrip (cs : list ascii) (s : string) : string :=
  match s with
  | EmptyString => EmptyString
  | String c s' =>
      match rstrip cs s' with
      | EmptyString => if mem_char c cs then EmptyString
                       else String c EmptyString
      | r => String c r
      end
  end.

(** [s.strip(chars)]. *)
Definition strip (cs : list ascii) (s : string) : string :=
  rstrip cs (lstrip cs s).

(** [sep.join(l)]. *)
Definition join (sep : string) (l : list string) : string :=
  String.concat sep l.

(** [w in s] for two strings: [w] occurs in [s] as a substring. *)
Fixpoint contains (w s : string) : bool :=
  String.prefix w s
  || match s with
     | EmptyString => false
     | String _ s' => contains w s'
     end.

(** [w in l] for a list or tuple of strings. *)
Definition mem (w : string) (l : list string) : bool :=
  existsb (String.eqb w) l.

(** [str(n)] for a non-negative [int]. *)
Definition str (n : nat) : string :=
  NilEmpty.string_of_uint (Nat.to_uint n).

(** [max(l, key=len)]: the first element of maximal length; [None]
    stands for the [ValueError] Python raises on an empty sequence. *)
Fixpoint max_by_len_from (best : string) (l : list string) : string :=
  match l with
  | [] => best
  | w :: l' =>
      if String.length best <? String.length w
      then max_by_len_from w l' else max_by_len_from best l'
  end.

Definition max_by_len (l : list string) : option string :=
  match l with
  | [] => None
  | w :: l' => Some (max_by_len_from w l')
  end.

(** [l.remove(w)] when [w] is in [l]: drops the first occurrence. *)
Fixpoint remove_first (w : string) (l : list string) : list string :=
  match l with
  | [] => []
  | x :: l' => if String.eqb w x then l' else x :: remove_first w l'
  end.

End PyStr.

Import PyStr.

(** ** Exceptions and mutable state *)

Module Py.

Inductive exn : Type :=
| KeyError (key : string)
| ValueError
| ZeroDivisionError
| UnboundLocalError (var : string).

Inductive outcome (A : Type) : Type :=
| Ret (a : A)
| Raise (e : exn).

Arguments Ret {A} a.
Arguments Raise {A} e.

(** A computation over a mutable state [St]; what was written before a
    raise stays written. *)
Definition M (St A : Type) : Type := St -> outcome A * St.

Definition ret {St A} (a : A) : M St A := fun s => (Ret a, s).

Definition raise {St A} (e : exn) : M St A := fun s => (Raise e, s).

Definition bind {St A B} (m : M St A) (k : A -> M St B) : M St B :=
  fun s =>
    match m s with
    | (Ret a, s') => k a s'
    | (Raise e, s') => (Raise e, s')
    end.

Definition get {St} : M St St := fun s => (Ret s, s).

Definition modify {St} (f : St -> St) : M St unit := fun s => (Ret tt, f s).

End Py.

Import Py.

Notation "x <- m ;; k" := (bind m (fun x => k))
  (at level 61, m at next level, right associativity).
Notation "m ;; k" := (bind m (fun _ => k))
  (at level 61, right associativity).

(** ** Python dicts with string keys *)

Section Dict.

Context {V : Type}.

Definition dict : Type := list (string * V).

Fixpoint dict_get (k : string) (d : dict) : option V :=
  match d with
  | [] => None
  | (k', v) :: d' => if String.eqb k k' then Some v else dict_get k d'
  end.

(** [k in d]. *)
Definition dict_mem (k : string) (d : dict) : bool :=
  match dict_get k d with Some _ => true | None => false end.

(** [d[k] = v]: an existing key keeps its place, a new one goes last. *)
Fixpoint dict_set (k : string) (v : V) (d : dict) : dict :=
  match d with
  | [] => [(k, v)]
  | (k', v') :: d' =>
      if String.eqb k k' then (k, v) :: d' else (k', v') :: dict_set k v d'
  end.

(** [del d[k]] for a key that is present. *)
Fixpoint dict_del (k : string) (d : dict) : dict :=
  match d with
  | [] => []
  | (k', v') :: d' =>
      if String.eqb k k' then d' else (k', v') :: dict_del k d'
  end.

(** [list(d)]: the keys in insertion order. *)
Definition dict_keys (d : dict) : list string := map fst d.

(** [d[k]], raising [KeyError] on a missing key. *)
Definition getitem {St} (d : dict) (k : string) : M St V :=
  match dict_get k d with
  | Some v => ret v
  | None => raise (KeyError k)
  end.

End Dict.

Arguments dict V : clear implicits.

(** ** [class Record] and [class Corpus] *)

Definition kChadwyckTitle : string := "title".
Definition kGaleTitle : string := "display_title".
Definition kChicagoTitle : string := "TITLE".
Definition kTitleFields : list string :=
  [kChicagoTitle; kChadwyckTitle; kGaleTitle].

(** One row as [csv.DictReader] yields it: column name to value. *)
Definition row : Type := dict string.

Record Record_ : Type := mkRecord {
  r_id : string;
  r_title : string;
  r_metadata : row
}.

(** [Record.__init__]. *)
Definition Record_init {St} (id_name : string) (metadata : row)
    (title_field : string) : M St Record_ :=
  t <- getitem metadata title_field ;;
  ret (mkRecord id_name t metadata).

Record Corpus : Type := mkCorpus {
  metatable : string;
  records : dict Record_;
  len : nat;
  field_names : list string;
  id_count : nat
}.

Definition kStopWords : list string :=
  ["the"; "of"; "a"; "an"; "in"; "on"; "and"].

(** [Corpus.__init__]. *)
Definition Corpus_init (path : string) : Corpus :=
  mkCorpus path [] 0 [] 0.

(** [Corpus.get_title_field]. *)
Fixpoint get_title_field (fields : list string) : option string :=
  match fields with
  | [] => None
  | field :: rest =>
      if mem field kTitleFields then Some field else get_title_field rest
  end.

(** The characters stripped by [get_title]: comma, full stop, colon,
    semicolon, single quote and double quote. *)
Definition kTitlePunct : list ascii :=
  [","; "."; ":"; ";"; "'"; "034"]%char.

Definition norm_word (word : string) : string :=
  strip kTitlePunct (lower word).

(** The list comprehension of [get_title]. *)
Definition t_words (title : string) : list string :=
  map norm_word
      (filter (fun word => negb (mem (norm_word word) kStopWords))
              (split title)).

Definition make_key (title : string) (n : nat) : string :=
  (join "_" (t_words title) ++ "_" ++ str n)%string.

(** [Corpus.get_title]: the key, and [self.id_count += 1]. *)
Definition get_title (title : string) : M Corpus string :=
  self <- get ;;
  let key := make_key title (id_count self) in
  modify (fun c => mkCorpus (metatable c) (records c) (len c)
                            (field_names c) (id_count c + 1)) ;;
  ret key.

(** The body of the [for row in reader] loop of [read_metatable];
    [count] is the loop's local counter. The first branch of the [if] is
    the collision branch ([continue]). *)
Definition read_row (title_field : string) (r : row) (count : nat)
    : M Corpus nat :=
  raw_title <- getitem r title_field ;;
  title <- get_title raw_title ;;
  self <- get ;;
  if dict_mem title (records self) then ret count
  else
    rec <- Record_init title r title_field ;;
    modify (fun c => mkCorpus (metatable c) (dict_set title rec (records c))
                              (len c) (field_names c) (id_count c)) ;;
    ret (count + 1).

Fixpoint read_rows (title_field : string) (rows : list row) (count : nat)
    : M Corpus nat :=
  match rows with
  | [] => ret count
  | r :: rest =>
      count' <- read_row title_field r count ;;
      read_rows title_field rest count'
  end.

(** [Corpus.read_metatable], on the header and rows the reader found. *)
Definition read_metatable (fieldnames : list string) (rows : list row)
    : M Corpus unit :=
  modify (fun c => mkCorpus (metatable c) (records c) (len c)
                            fieldnames (id_count c)) ;;
  match get_title_field fieldnames with
  | None =>
      self <- get ;;
      raise (KeyError ("Could not find valid title field for "
                       ++ metatable self))
  | Some title_field =>
      count <- read_rows title_field rows 0 ;;
      modify (fun c => mkCorpus (metatable c) (records c) (len c + count)
                                (field_names c) (id_count c))
  end.

(** ** The process state seen by the matcher *)

(** A reference to a [matches] dict on the heap. *)
Definition ref : Type := nat.

(** What a function of the matcher returns. *)
Inductive pyval : Type :=
| PyNone
| PyDict (r : ref).

(** One row of [bad_matches.csv]. *)
Record log_row : Type := mkLogRow {
  log_match : string;
  log_title : string;
  log_percent : Q
}.

(** The path of the audit log, in the working directory. *)
Definition kBadMatchFile : string := "bad_matches.csv".

(** The dicts on the heap and the files of the working directory.
    [out_files] maps a file to the rows last written to it by [main];
    [bad_match_file] holds the rows appended to [bad_matches.csv] since
    it was last created or truncated. The match file of a table named
    [bad.csv] or [bad.tsv] is that same file [bad_matches.csv]: the file
    then reads as its entry in [out_files] followed by the rows of
    [bad_match_file], and writing it as a match file empties
    [bad_match_file] (see [write_file]). *)
Record World : Type := mkWorld {
  heap : list (dict Record_);
  bad_match_file : list log_row;
  out_files : dict (list (list string))
}.

(** [matches = {}]: a fresh dict object. *)
Definition alloc : M World ref :=
  fun w => (Ret (List.length (heap w)),
            mkWorld (heap w ++ [[]]) (bad_match_file w) (out_files w)).

Definition load (r : ref) : M World (dict Record_) :=
  fun w => (Ret (nth r (heap w) []), w).

Fixpoint update_nth {A} (n : nat) (f : A -> A) (l : list A) : list A :=
  match l, n with
  | [], _ => []
  | x :: l', 0 => f x :: l'
  | x :: l', S n' => x :: update_nth n' f l'
  end.

(** Mutate the dict object [r] in place. *)
Definition mutate (r : ref) (f : dict Record_ -> dict Record_)
    : M World unit :=
  modify (fun w => mkWorld (update_nth r f (heap w)) (bad_match_file w)
                           (out_files w)).

(** [writer.writerow] on the file opened in append mode. *)
Definition append_log (l : log_row) : M World unit :=
  modify (fun w => mkWorld (heap w) (bad_match_file w ++ [l]) (out_files w)).

(** ** [filter_matches] *)

Definition kMatchThreshold : Q := (1 # 2)%Q.

(** The characters stripped by [filter_matches]: comma, full stop, colon,
    semicolon and question mark. *)
Definition kFilterPunct : list ascii := [","; "."; ":"; ";"; "?"]%char.

(** The inner [for word in matches[match].title.split()] loop. The local
    variable [metadata_title] is assigned in the body, and nowhere else:
    it keeps its old value, or stays unbound ([None]), when the record's
    title has no word. *)
Fixpoint count_terms (match_ title : string) (words : list string)
    (metadata_title : option string) (num_terms_matched : nat)
    : option string * nat :=
  match words with
  | [] => (metadata_title, num_terms_matched)
  | word :: rest =>
      let metadata_title := Some title in
      let word := lower (strip kFilterPunct word) in
      count_terms match_ title rest metadata_title
        (if contains word match_ then num_terms_matched + 1
         else num_terms_matched)
  end.

(** [num_terms_matched / title_len] for [title_len > 0], as the exact
    rational. Python rounds the quotient to a float; the comparison with
    0.5 is that of the exact quotient for every [title_len] below 2^53. *)
Definition match_percent (num_terms_matched title_len : nat) : Q :=
  (Z.of_nat num_terms_matched # Pos.of_nat title_len)%Q.

(** The body of the [for match in list(matches)] loop; [metadata_title]
    is threaded through the iterations. *)
Definition filter_match (matches : ref) (match_ : string)
    (metadata_title : option string) : M World (option string) :=
  let title_len := List.length (split match_) in
  d <- load matches ;;
  rec <- getitem d match_ ;;
  let '(metadata_title, num_terms_matched) :=
    count_terms match_ (r_title rec) (split (r_title rec))
                metadata_title 0 in
  if title_len =? 0 then raise ZeroDivisionError
  else
    let percent := match_percent num_terms_matched title_len in
    if Qle_bool percent kMatchThreshold then
      match metadata_title with
      | None => raise (UnboundLocalError "metadata_title")
      | Some mt =>
          append_log (mkLogRow match_ mt percent) ;;
          mutate matches (dict_del match_) ;;
          ret metadata_title
      end
    else ret metadata_title.

Fixpoint filter_loop (matches : ref) (keys : list string)
    (metadata_title : option string) : M World unit :=
  match keys with
  | [] => ret tt
  | match_ :: rest =>
      metadata_title' <- filter_match matches match_ metadata_title ;;
      filter_loop matches rest metadata_title'
  end.

(** [filter_matches]: the function body has no [return] statement. *)
Definition filter_matches (matches : ref) : M World pyval :=
  d <- load matches ;;
  filter_loop matches (dict_keys d) None ;;
  ret PyNone.

(** ** [get_match] and [match_titles] *)

(** [[c for c in candidates if cur_word in c.split('_')]]. *)
Definition has_word (cur_word : string) (key : string) : bool :=
  mem cur_word (split_on "_" key).

Definition narrow (cur_word : string) (candidates : list string)
    : list string :=
  filter (has_word cur_word) candidates.

Equations? get_match (title : list string) (candidates : list string)
    : option string by wf (List.length title) lt :=
  get_match [] candidates := None;
  get_match (w :: l) candidates :=
    match narrow (max_by_len_from w l) candidates with
    | [c] => Some c
    | new_candidates =>
        get_match (remove_first (max_by_len_from w l) (w :: l))
                  new_candidates
    end.
Proof.
  all: clear get_match.
  all: assert (Hin : forall b t, In (max_by_len_from b t) (b :: t))
    by (intros b t; revert b; induction t as [|x t IH]; intros b; simpl;
        [ now left
        | destruct (String.length b <? String.length x);
          [ right; apply IH | destruct (IH b) as [H|H]; auto ] ]).
  all: assert (Hrm : forall x t, In x t ->
                     List.length (remove_first x t) < List.length t)
    by (intros x t; induction t as [|y t IH]; simpl; intros H;
        [ contradiction
        | destruct (String.eqb_spec x y);
          [ lia
          | destruct H as [H|H]; [ congruence | simpl; specialize (IH H); lia ] ] ]).
  all: apply (Hrm _ (w :: l)), Hin.
Qed.

(** [[word for word in title.split() if word not in corpus.kStopWords]]. *)
Definition search_words (title : string) : list string :=
  filter (fun word => negb (mem word kStopWords)) (split title).

(** The body of the [for title in titles] loop of [match_titles]. *)
Definition match_title (matches : ref) (corpus : Corpus) (title : string)
    : M World unit :=
  let search_title := search_words title in
  match max_by_len search_title with
  | None => raise ValueError
  | Some cur_word =>
      let candidates := narrow cur_word (dict_keys (records corpus)) in
      match candidates with
      | [] => ret tt
      | [c] =>
          rec <- getitem (records corpus) c ;;
          mutate matches (dict_set title rec)
      | _ =>
          match get_match (remove_first cur_word search_title) candidates with
          | Some m =>
              rec <- getitem (records corpus) m ;;
              mutate matches (dict_set title rec)
          | None => ret tt
          end
      end
  end.

Fixpoint match_loop (matches : ref) (corpus : Corpus) (titles : list string)
    : M World unit :=
  match titles with
  | [] => ret tt
  | title :: rest =>
      match_title matches corpus title ;;
      match_loop matches corpus rest
  end.

(** [match_titles]: what [filter_matches] returns is dropped, and the
    dict allocated at the start is returned. *)
Definition match_titles (titles : list string) (corpus : Corpus)
    : M World ref :=
  matches <- alloc ;;
  match_loop matches corpus titles ;;
  filter_matches matches ;;
  ret matches.

(** ** The per-table loop of [main] *)

(** A directory entry: its path, its name (the last component of the
    path) and, for a table, the header and the rows that [csv.DictReader]
    reads from it. *)
Record table_file : Type := mkFile {
  path : string;
  name : string;
  fieldnames : list string;
  rows : list row
}.

(** [s.endswith(suffix)]. *)
Definition endswith (s suffix : string) : bool :=
  let n := String.length s in
  let k := String.length suffix in
  (k <=? n) && String.eqb (substring (n - k) k s) suffix.

Definition is_table (f : table_file) : bool :=
  endswith (name f) ".csv" || endswith (name f) ".tsv".

(** A method call on a [Corpus] object local to the caller: an exception
    of the method is an exception of the caller. *)
Definition on_corpus {A} (m : M Corpus A) (c : Corpus)
    : M World (A * Corpus) :=
  fun w =>
    match m c with
    | (Ret a, c') => (Ret (a, c'), w)
    | (Raise e, _) => (Raise e, w)
    end.

(** [open(outfile, 'w')] and the rows written to it: the file is
    truncated first, so when [outfile] is the path of the audit log the
    rows logged so far are lost. *)
Definition write_file (outfile : string) (content : list (list string))
    : M World unit :=
  modify (fun w => mkWorld (heap w)
                           (if String.eqb outfile kBadMatchFile then []
                            else bad_match_file w)
                           (dict_set outfile content (out_files w))).

Definition outfile_name (file_name : string) : string :=
  (substring 0 (String.length file_name - 4) file_name
   ++ "_matches.csv")%string.

(** The body of [for file in metadata_dir.iterdir()]: nothing in it, and
    nothing around the loop, catches an exception. *)
Definition process_file (titles : list string) (file : table_file)
    : M World unit :=
  if negb (is_table file) then ret tt
  else
    res <- on_corpus (read_metatable (fieldnames file) (rows file))
                     (Corpus_init (path file)) ;;
    let cur_corpus := snd res in
    matches <- match_titles titles cur_corpus ;;
    d <- load matches ;;
    let header := "match_title" :: field_names cur_corpus in
    let body :=
      map (fun tr => fst tr :: map snd (r_metadata (snd tr))) d in
    write_file (outfile_name (name file)) (header :: body).

Fixpoint main_loop (titles : list string) (files : list table_file)
    : M World unit :=
  match files with
  | [] => ret tt
  | file :: rest =>
      process_file titles file ;;
      main_loop titles rest
  end.

(** The state in which [main] enters its loop: no dict allocated, the
    audit log absent or just removed, no match file written. *)
Definition world0 : World := mkWorld [] [] [].

(** ** [get_titles] *)

(** [s.replace(old, new)] for one-character [old] and [new]. *)
Fixpoint replace_char (old new : ascii) (s : string) : string :=
  match s with
  | EmptyString => EmptyString
  | String c s' =>
      String (if Ascii.eqb c old then new else c) (replace_char old new s')
  end.

(** What [get_titles] can raise on rows already parsed by [csv.reader]. *)
Inductive read_error : Type :=
| StopIteration
| IndexError.

(** [row[i]] on a list: a negative index counts from the end. *)
Definition list_getitem {A} (l : list A) (i : Z) : option A :=
  let n := Z.of_nat (List.length l) in
  if (0 <=? i)%Z then nth_error l (Z.to_nat i)
  else if (- n <=? i)%Z then nth_error l (Z.to_nat (n + i))
  else None.

(** The [for row in reader] loop of [get_titles]. *)
Fixpoint get_titles_loop (rows : list (list string)) (col_num : Z)
    (titles : list string) : read_error + list string :=
  match rows with
  | [] => inr titles
  | r :: rest =>
      match list_getitem r col_num with
      | None => inl IndexError
      | Some cell_text =>
          get_titles_loop rest col_num
                          (titles ++ [replace_char "-" " " cell_text])
      end
  end.

(** [get_titles], on the rows that [csv.reader] yields for the file. *)
Definition get_titles (rows : list (list string)) (col_num : Z)
    (title_header : bool) : read_error + list string :=
  if title_header then
    match rows with
    | [] => inl StopIteration
    | _ :: rest => get_titles_loop rest col_num []
    end
  else get_titles_loop rows col_num [].

(** ** [confirm] and the start of [main] *)

(** The characters removed by [str.strip()], for code points below 256. *)
Definition kWhitespace : list ascii :=
  map ascii_of_nat [9; 10; 11; 12; 13; 28; 29; 30; 31; 32; 133; 160].

(** [str(input(...)).lower().strip()]. *)
Definition answer_of (line : string) : string :=
  strip kWhitespace (lower line).

(** [confirm], on the lines still to be read from the terminal: the
    answer, if one comes before the end of the input ([None] stands for
    the [EOFError] of [input]), and the lines left unread. One call of
    the source per line read; the interpreter's limit on the depth of
    recursion is not modelled. *)
Fixpoint confirm (lines : list string) : option bool * list string :=
  match lines with
  | [] => (None, [])
  | line :: rest =>
      match answer_of line with
      | String "y" _ => (Some true, rest)
      | String "n" _ => (Some false, rest)
      | _ => confirm rest
      end
  end.

(** How a run of [main] ends. *)
Inductive run_result : Type :=
| Aborted
| NoAnswer
| TitlesFailed (e : read_error)
| Finished (o : outcome unit) (w : World).

(** [main] after the arguments are parsed: [log_exists] tells whether
    [bad_matches.csv] is there at the start, [lines] is what the user
    types, [title_rows] the parsed titles file and [files] the entries of
    the metadata directory. *)
Definition main (log_exists : bool) (lines : list string)
    (title_rows : list (list string)) (title_col : Z) (title_header : bool)
    (files : list table_file) : run_result :=
  let start :=
    match get_titles title_rows title_col title_header with
    | inl e => TitlesFailed e
    | inr titles =>
        let res := main_loop titles files world0 in
        Finished (fst res) (snd res)
    end in
  if log_exists then
    match fst (confirm lines) with
    | Some true => start
    | Some false => Aborted
    | None => NoAnswer
    end
  else start.

(** ** Notions used in the statements *)

(** No character of the string satisfies [p]. *)
Fixpoint free_of (p : ascii -> bool) (s : string) : Prop :=
  match s with
  | EmptyString => True
  | String c s' => p c = false /\ free_of p s'
  end.

Definition is_digit (c : ascii) : Prop :=
  In c ["0"; "1"; "2"; "3"; "4"; "5"; "6"; "7"; "8"; "9"]%char.

Fixpoint digits (s : string) : Prop :=
  match s with
  | EmptyString => True
  | String c s' => is_digit c /\ digits s'
  end.

(** Every key of the index ends in the decimal of a counter value that
    has already been used. *)
Definition keys_below (c : Corpus) : Prop :=
  forall k, In k (dict_keys (records c)) ->
    exists w n, k = (w ++ "_" ++ str n)%string /\ n < id_count c.

(** The invariant of the index while [read_metatable] builds it. *)
Definition index_ok (c : Corpus) : Prop :=
  NoDup (dict_keys (records c)) /\ keys_below c.

(** The world in which the dict object [r] holds [d] and [rows] have been
    appended to the audit log. *)
Definition set_cell (r : ref) (d : dict Record_) (rows : list log_row)
    (w : World) : World :=
  mkWorld (update_nth r (fun _ => d) (heap w)) (bad_match_file w ++ rows)
          (out_files w).

(** The dict object [r]. *)
Definition cell (r : ref) (w : World) : dict Record_ := nth r (heap w) [].

(** What [filter_matches] computes for one entry of the mapping. *)
Definition terms_matched (entry : string * Record_) : nat :=
  snd (count_terms (fst entry) (r_title (snd entry))
                   (split (r_title (snd entry))) None 0).

Definition overlap (entry : string * Record_) : Q :=
  match_percent (terms_matched entry) (List.length (split (fst entry))).

(** The test [match_percent <= kMatchThreshold]. *)
Definition rejected (entry : string * Record_) : bool :=
  Qle_bool (overlap entry) kMatchThreshold.

Definition kept (entry : string * Record_) : bool := negb (rejected entry).

(** The log row of a rejected entry: query title, title of the matched
    record, overlap. *)
Definition log_of (entry : string * Record_) : log_row :=
  mkLogRow (fst entry) (r_title (snd entry)) (overlap entry).

(** The query title and the title of the record both have a word. *)
Definition worded (entry : string * Record_) : Prop :=
  split (fst entry) <> [] /\ split (r_title (snd entry)) <> [].

(** The decision of the loop body of [match_titles], without the store:
    the record to bind to [title], if any. *)
Definition find_match (recs : dict Record_) (title : string)
    : outcome (option Record_) :=
  let lookup key :=
    match dict_get key recs with
    | Some rec => Ret (Some rec)
    | None => Raise (KeyError key)
    end in
  match max_by_len (search_words title) with
  | None => Raise ValueError
  | Some cur_word =>
      match narrow cur_word (dict_keys recs) with
      | [] => Ret None
      | [c] => lookup c
      | candidates =>
          match get_match (remove_first cur_word (search_words title))
                          candidates with
          | Some m => lookup m
          | None => Ret None
          end
      end
  end.

(** The value of [metadata_title] after the inner loop of the filter on
    the title of [rec]. *)
Definition title_after (mt : option string) (rec : Record_)
    : option string :=
  match split (r_title rec) with
  | [] => mt
  | _ :: _ => Some (r_title rec)
  end.

(** The loop of [match_titles] on the dict alone. *)
Fixpoint collect (recs : dict Record_) (titles : list string)
    (d : dict Record_) : outcome unit * dict Record_ :=
  match titles with
  | [] => (Ret tt, d)
  | title :: rest =>
      match find_match recs title with
      | Ret (Some rec) => collect recs rest (dict_set title rec d)
      | Ret None => collect recs rest d
      | Raise e => (Raise e, d)
      end
  end.

(** The loop of [filter_matches] on the dict and the rows it logs. *)
Fixpoint sift (keys : list string) (mt : option string) (d : dict Record_)
    : outcome unit * dict Record_ * list log_row :=
  match keys with
  | [] => (Ret tt, d, [])
  | k :: rest =>
      match dict_get k d with
      | None => (Raise (KeyError k), d, [])
      | Some v =>
          if List.length (split k) =? 0 then (Raise ZeroDivisionError, d, [])
          else if rejected (k, v) then
            match title_after mt v with
            | None => (Raise (UnboundLocalError "metadata_title"), d, [])
            | Some t =>
                let '(o, d', rows) := sift rest (Some t) (dict_del k d) in
                (o, d', mkLogRow k t (overlap (k, v)) :: rows)
            end
          else sift rest (title_after mt v) d
      end
  end.

(** What [match_titles] computes from the titles and the records: how it
    ends, the mapping, and the rows it logs. *)
Definition matcher (recs : dict Record_) (titles : list string)
    : outcome unit * dict Record_ * list log_row :=
  match collect recs titles [] with
  | (Ret _, d) => sift (dict_keys d) None d
  | (Raise e, d) => (Raise e, d, [])
  end.

(** What [confirm] makes of one line: an answer, or an invalid input. *)
Definition verdict (line : string) : option bool :=
  match answer_of line with
  | String "y" _ => Some true
  | String "n" _ => Some false
  | _ => None
  end.

(** [i] is a valid index of a list of length [n]. *)
Definition in_range (i : Z) (n : nat) : Prop :=
  (- Z.of_nat n <= i < Z.of_nat n)%Z.

(** Every word of [ws] is a segment of [key]. *)
Definition has_words (ws : list string) (key : string) : bool :=
  forallb (fun w => has_word w key) ws.

(** What the loop of [match_titles] puts in the mapping: titles with a
    significant word, bound to records of the index. *)
Definition accepted_entry (recs : dict Record_) (titles : list string)
    (e : string * Record_) : Prop :=
  In (fst e) titles /\ search_words (fst e) <> []
  /\ exists key, In (key, snd e) recs.

(** The title that [get_titles] makes of one row. *)
Definition title_of_row (col_num : Z) (r : list string) (t : string)
    : Prop :=
  exists cell_text,
    list_getitem r col_num = Some cell_text
    /\ t = replace_char "-" " " cell_text.

(** ** Tables and records used in the examples *)

Module Sample.

Definition moby_row : row := [("id", "7"); ("title", "Moby Dick")].

Definition moby_record : Record_ :=
  mkRecord "moby_dick_0" "Moby Dick" moby_row.

(** An index whose only key is [moby_dick_0]. *)
Definition moby_corpus : Corpus :=
  mkCorpus "/corpora/melville.csv" [("moby_dick_0", moby_record)] 1
           ["id"; "title"] 1.

(** A table with a recognised title column. *)
Definition melville_csv : table_file :=
  mkFile "/corpora/melville.csv" "melville.csv" ["id"; "title"] [moby_row].

(** A table whose header has none of [kTitleFields]. *)
Definition untitled_csv : table_file :=
  mkFile "/corpora/untitled.csv" "untitled.csv" ["id"; "name"]
         [[("id", "1"); ("name", "Emma")]].

(** A table whose first row has an empty title cell. *)
Definition blank_row : row := [("title", "")].

Definition gatsby_row : row := [("title", "The Great Gatsby")].

Definition fitzgerald_csv : table_file :=
  mkFile "/corpora/fitzgerald.csv" "fitzgerald.csv" ["title"]
         [blank_row; gatsby_row].

Definition blank_record : Record_ := mkRecord "_0" "" blank_row.

Definition gatsby_record : Record_ :=
  mkRecord "great_gatsby_1" "The Great Gatsby" gatsby_row.

(** The index that [read_metatable] builds from [fitzgerald_csv]. *)
Definition fitzgerald_corpus : Corpus :=
  mkCorpus "/corpora/fitzgerald.csv"
           [("_0", blank_record); ("great_gatsby_1", gatsby_record)]
           2 ["title"] 2.

(** An index with two keys that share the words "red" and "badge". *)
Definition courage_record : Record_ :=
  mkRecord "red_badge_of_courage_0" "The Red Badge of Courage"
           [("title", "The Red Badge of Courage")].

Definition badge_record : Record_ :=
  mkRecord "red_badge_1" "Red Badge" [("title", "Red Badge")].

Definition crane_corpus : Corpus :=
  mkCorpus "/corpora/crane.csv"
           [("red_badge_of_courage_0", courage_record);
            ("red_badge_1", badge_record)]
           2 ["title"] 2.

End Sample.

(** * Properties *)

(** ** Sanity checks of the string primitives *)

Example split_ex : split "  The  Great Gatsby " = ["The"; "Great"; "Gatsby"].
Proof. reflexivity. Qed.

Example split_on_ex : split_on "_" "great_gatsby_0" = ["great"; "gatsby"; "0"].
Proof. reflexivity. Qed.

Example split_on_empty_ex : split_on "_" "_0" = [""; "0"].
Proof. reflexivity. Qed.

Example strip_ex : norm_word "Gatsby;'" = "gatsby" /\ norm_word "..." = "".
Proof. split; reflexivity. Qed.

Example str_ex : str 0 = "0" /\ str 10 = "10" /\ str 207 = "207".
Proof. repeat split; reflexivity. Qed.

Example max_by_len_ex : max_by_len ["Moby"; "Dick"; "of"] = Some "Moby".
Proof. reflexivity. Qed.

Example get_match_ex :
  get_match ["badge"] ["red_badge_of_courage_0"; "red_badge_1"] = None
  /\ get_match ["courage"] ["red_badge_of_courage_0"; "red_badge_1"]
     = Some "red_badge_of_courage_0".
Proof. split; reflexivity. Qed.

(** ** Splitting and the decimal suffix *)

Section Splitting.

Variable p : ascii -> bool.

Lemma split_by_not_nil (s : string) : split_by p s <> [].
Proof.
  induction s as [|c s IH]; simpl; [discriminate|].
  destruct (p c); [discriminate|].
  destruct (split_by p s); discriminate.
Qed.

Lemma split_by_free (s : string) : free_of p s -> split_by p s = [s].
Proof.
  induction s as [|c s IH]; simpl; [reflexivity|].
  intros [Hc Hs]. rewrite Hc, (IH Hs). reflexivity.
Qed.

Lemma split_by_app (a b : string) (c : ascii) :
  p c = true ->
  split_by p (a ++ String c b) = split_by p a ++ split_by p b.
Proof.
  intros Hc. induction a as [|x a IH]; simpl.
  - rewrite Hc. reflexivity.
  - destruct (p x).
    + rewrite IH. reflexivity.
    + rewrite IH. pose proof (split_by_not_nil a) as Hne.
      destruct (split_by p a); [congruence | reflexivity].
Qed.

End Splitting.

Lemma string_of_uint_digits (d : Decimal.uint) :
  digits (NilEmpty.string_of_uint d).
Proof.
  induction d; simpl; unfold is_digit; simpl; intuition.
Qed.

Lemma digits_free_of_underscore (s : string) :
  digits s -> free_of (Ascii.eqb "_") s.
Proof.
  induction s as [|c s IH]; simpl; [trivial|].
  intros [Hc Hs]. split; [|auto].
  unfold is_digit in Hc. simpl in Hc.
  repeat (destruct Hc as [<-|Hc]; [reflexivity|]). contradiction.
Qed.

Lemma str_free_of_underscore (n : nat) : free_of (Ascii.eqb "_") (str n).
Proof. apply digits_free_of_underscore, string_of_uint_digits. Qed.

Lemma str_inj (n m : nat) : str n = str m -> n = m.
Proof.
  unfold str. intros H. apply Unsigned.to_uint_inj.
  apply (f_equal NilEmpty.uint_of_string) in H.
  rewrite !NilEmpty.usu in H. congruence.
Qed.

(** The segments of a key: those of the joined words, then the suffix. *)
Lemma split_on_suffixed (w : string) (n : nat) :
  split_on "_" (w ++ "_" ++ str n) = split_on "_" w ++ [str n].
Proof.
  unfold split_on. change ("_" ++ str n)%string with (String "_" (str n)).
  rewrite split_by_app by reflexivity.
  rewrite (split_by_free _ (str n)) by apply str_free_of_underscore.
  reflexivity.
Qed.

Lemma suffixed_inj (w1 w2 : string) (n1 n2 : nat) :
  (w1 ++ "_" ++ str n1 = w2 ++ "_" ++ str n2)%string -> n1 = n2.
Proof.
  intros H. apply (f_equal (split_on "_")) in H.
  rewrite !split_on_suffixed in H.
  apply app_inj_tail in H. apply str_inj, H.
Qed.

Lemma make_key_inj (t1 t2 : string) (n1 n2 : nat) :
  make_key t1 n1 = make_key t2 n2 -> n1 = n2.
Proof. apply suffixed_inj. Qed.

(** ** Normalisation ([Corpus.get_title]) *)

(** C9. On any corpus, [get_title "The Great Gatsby"] and
    [get_title "Great Gatsby"] return [great_gatsby_<n>], [n] being the
    value of the corpus's counter at the call: the two keys differ only
    by that suffix. *)
Theorem get_title_stop_word_invariance (c1 c2 : Corpus) :
  fst (get_title "The Great Gatsby" c1)
    = Ret ("great_gatsby_" ++ str (id_count c1))%string
  /\ fst (get_title "Great Gatsby" c2)
    = Ret ("great_gatsby_" ++ str (id_count c2))%string.
Proof. split; reflexivity. Qed.

Lemma get_title_run (t : string) (c : Corpus) :
  get_title t c
  = (Ret (make_key t (id_count c)),
     mkCorpus (metatable c) (records c) (len c) (field_names c)
              (id_count c + 1)).
Proof. reflexivity. Qed.

(** C4. Two calls of [get_title] on the same corpus return distinct keys,
    whatever the two titles: the counter only grows between the first
    call and the second, so the suffixes differ. *)
Theorem get_title_keys_distinct (t1 t2 : string) (c c1 c' c2 : Corpus)
    (k1 k2 : string) :
  get_title t1 c = (Ret k1, c1) ->
  id_count c1 <= id_count c' ->
  get_title t2 c' = (Ret k2, c2) ->
  k1 <> k2.
Proof.
  rewrite !get_title_run. intros H1 Hle H2 Heq.
  injection H1 as <- <-. injection H2 as <- _.
  apply make_key_inj in Heq. simpl in Hle. lia.
Qed.

Lemma get_title_keys_distinct_witness :
  let c := Corpus_init "a.csv" in
  let c1 := mkCorpus "a.csv" [] 0 [] 1 in
  let c2 := mkCorpus "a.csv" [] 0 [] 2 in
  get_title "Emma" c = (Ret "emma_0", c1)
  /\ id_count c1 <= id_count c1
  /\ get_title "Emma" c1 = (Ret "emma_1", c2)
  /\ "emma_0" <> "emma_1".
Proof.
  intros c c1 c2.
  assert (H1 : get_title "Emma" c = (Ret "emma_0", c1)) by reflexivity.
  assert (H2 : get_title "Emma" c1 = (Ret "emma_1", c2)) by reflexivity.
  assert (Hle : id_count c1 <= id_count c1) by (simpl; lia).
  refine (conj H1 (conj Hle (conj H2 _))).
  exact (get_title_keys_distinct "Emma" "Emma" c c1 c1 c2 "emma_0" "emma_1"
           H1 Hle H2).
Defined.

(** ** Facts on dicts *)

Section DictFacts.

Context {V : Type}.
Implicit Types (d : dict V) (k : string) (v : V).

Lemma dict_get_none_iff k d : dict_get k d = None <-> ~ In k (dict_keys d).
Proof.
  induction d as [|[k' v'] d IH]; simpl; [tauto|].
  destruct (String.eqb_spec k k') as [->|Hne].
  - split; [discriminate | intros H; exfalso; auto].
  - rewrite IH. intuition congruence.
Qed.

Lemma dict_mem_false_iff k d : dict_mem k d = false <-> ~ In k (dict_keys d).
Proof.
  unfold dict_mem. rewrite <- dict_get_none_iff.
  destruct (dict_get k d); split; congruence.
Qed.

Lemma dict_set_fresh k v d :
  dict_get k d = None -> dict_set k v d = d ++ [(k, v)].
Proof.
  induction d as [|[k' v'] d IH]; simpl; [reflexivity|].
  destruct (String.eqb_spec k k'); [discriminate|].
  intros H. rewrite (IH H). reflexivity.
Qed.

Lemma dict_keys_app d1 d2 : dict_keys (d1 ++ d2) = dict_keys d1 ++ dict_keys d2.
Proof. apply map_app. Qed.





End DictFacts.

(** ** Index building ([Corpus.read_metatable]) *)

Lemma Corpus_init_ok (path : string) : index_ok (Corpus_init path).
Proof.
  split; [constructor | intros k []].
Qed.

(** In a state satisfying the invariant the next key is not in the index:
    the test of the collision branch is false. *)
Lemma next_key_fresh (c : Corpus) (raw_title : string) :
  keys_below c ->
  dict_mem (make_key raw_title (id_count c)) (records c) = false.
Proof.
  intros Hk. apply dict_mem_false_iff. intros Hin.
  destruct (Hk _ Hin) as (w & n & Heq & Hlt).
  apply suffixed_inj in Heq. lia.
Qed.

Lemma read_row_run (title_field : string) (r : row) (count : nat)
    (c : Corpus) :
  index_ok c ->
  match dict_get title_field r with
  | None => read_row title_field r count c = (Raise (KeyError title_field), c)
  | Some raw_title =>
      let key := make_key raw_title (id_count c) in
      read_row title_field r count c
      = (Ret (count + 1),
         mkCorpus (metatable c)
                  (records c ++ [(key, mkRecord key raw_title r)])
                  (len c) (field_names c) (id_count c + 1))
  end.
Proof.
  intros [Hnd Hk]. unfold read_row, bind, getitem, Record_init.
  destruct (dict_get title_field r) as [raw_title|] eqn:Hget;
    [|reflexivity].
  cbn. rewrite (next_key_fresh c raw_title Hk).
  unfold bind, getitem. rewrite Hget. cbn.
  rewrite dict_set_fresh; [reflexivity|].
  apply dict_get_none_iff, dict_mem_false_iff, next_key_fresh, Hk.
Qed.

Lemma read_row_ok (title_field : string) (r : row) (count : nat)
    (c : Corpus) :
  index_ok c -> index_ok (snd (read_row title_field r count c)).
Proof.
  intros Hok. pose proof (read_row_run title_field r count c Hok) as Hrun.
  destruct (dict_get title_field r) as [raw_title|]; cbv zeta in Hrun;
    rewrite Hrun; [|exact Hok].
  destruct Hok as [Hnd Hk].
  pose proof (next_key_fresh c raw_title Hk) as Hfresh.
  apply dict_mem_false_iff in Hfresh.
  split; simpl.
  - rewrite dict_keys_app. simpl. apply NoDup_app; [assumption | |].
    + constructor; [intros [] | constructor].
    + intros a Ha [<-|[]]. contradiction.
  - intros k. simpl. rewrite dict_keys_app, in_app_iff. simpl.
    intros [Hin|[<-|[]]].
    + destruct (Hk k Hin) as (w & n & -> & Hlt).
      exists w, n. split; [reflexivity | lia].
    + eexists _, (id_count c). split; [reflexivity | lia].
Qed.

Lemma read_rows_ok (title_field : string) (rows : list row) (count : nat)
    (c : Corpus) :
  index_ok c -> index_ok (snd (read_rows title_field rows count c)).
Proof.
  revert count c. induction rows as [|r rows IH]; intros count c Hok;
    simpl; [exact Hok|].
  unfold bind. pose proof (read_row_ok title_field r count c Hok) as Hok'.
  destruct (read_row title_field r count c) as [[count'|e] c']; simpl in *;
    [apply IH|]; assumption.
Qed.

(** Each row the loop gets through adds one record and one to [count]. *)
Lemma read_rows_count (title_field : string) (rows : list row)
    (count : nat) (c : Corpus) (n : nat) :
  index_ok c ->
  fst (read_rows title_field rows count c) = Ret n ->
  n = count + List.length rows
  /\ List.length (records (snd (read_rows title_field rows count c)))
     = List.length (records c) + List.length rows.
Proof.
  revert count c n.
  induction rows as [|r rows IH]; intros count c n Hok; simpl.
  - intros [= ->]. lia.
  - unfold bind.
    pose proof (read_row_ok title_field r count c Hok) as Hok'.
    pose proof (read_row_run title_field r count c Hok) as Hrun.
    destruct (dict_get title_field r) as [raw_title|]; cbv zeta in Hrun;
      rewrite Hrun in *; simpl in *; [|discriminate].
    intros Hn. destruct (IH _ _ _ Hok' Hn) as [-> Hlen].
    rewrite Hlen. cbn [records]. rewrite length_app. simpl. lia.
Qed.

(** The loop raises only on a row that lacks the title column. *)
Lemma read_rows_total (title_field : string) (rows : list row)
    (count : nat) (c : Corpus) :
  index_ok c ->
  Forall (fun r => dict_mem title_field r = true) rows ->
  fst (read_rows title_field rows count c)
  = Ret (count + List.length rows).
Proof.
  revert count c. induction rows as [|r rows IH]; intros count c Hok Hall;
    simpl.
  - f_equal. lia.
  - inversion Hall as [|? ? Hr Hrest]; subst. unfold bind.
    pose proof (read_row_ok title_field r count c Hok) as Hok'.
    pose proof (read_row_run title_field r count c Hok) as Hrun.
    unfold dict_mem in Hr.
    destruct (dict_get title_field r) as [raw_title|]; [|discriminate].
    cbv zeta in Hrun. rewrite Hrun in *. simpl in *.
    rewrite (IH _ _ Hok' Hrest). f_equal. lia.
Qed.

Lemma read_row_len (title_field : string) (r : row) (count : nat)
    (c : Corpus) :
  len (snd (read_row title_field r count c)) = len c.
Proof.
  unfold read_row, bind, getitem, Record_init.
  destruct (dict_get title_field r) as [raw_title|] eqn:Hget;
    [|reflexivity].
  cbn. destruct (dict_mem _ (records c)); [reflexivity|].
  unfold bind, getitem. rewrite Hget. reflexivity.
Qed.

Lemma read_rows_len (title_field : string) (rows : list row) (count : nat)
    (c : Corpus) :
  len (snd (read_rows title_field rows count c)) = len c.
Proof.
  revert count c. induction rows as [|r rows IH]; intros count c; simpl;
    [reflexivity|].
  unfold bind. pose proof (read_row_len title_field r count c) as Hlen.
  destruct (read_row title_field r count c) as [[count'|e] c']; simpl in *;
    [rewrite IH|]; assumption.
Qed.

(** C5. While [read_metatable] builds the index of a new [Corpus], from
    any header and any rows (those processed so far), the keys of
    [records] are pairwise distinct and the key of every possible next
    row is not in [records], so the collision branch is not taken; when
    the loop gets through the rows, every one of them has been stored. *)
Theorem read_metatable_no_collision (path : string)
    (fieldnames : list string) (rows : list row) :
  let res := read_metatable fieldnames rows (Corpus_init path) in
  let self := snd res in
  NoDup (dict_keys (records self))
  /\ (forall raw_title,
        dict_mem (make_key raw_title (id_count self)) (records self) = false)
  /\ (fst res = Ret tt ->
      List.length (records self) = List.length rows
      /\ len self = List.length rows).
Proof.
  unfold read_metatable, bind. cbn.
  set (c0 := mkCorpus path [] 0 fieldnames 0).
  assert (Hok0 : index_ok c0) by (split; [constructor | intros k []]).
  destruct (get_title_field fieldnames) as [title_field|]; cbn.
  - pose proof (read_rows_ok title_field rows 0 c0 Hok0) as Hok.
    pose proof (read_rows_count title_field rows 0 c0) as Hcount.
    destruct (read_rows title_field rows 0 c0) as [[count|e] c] eqn:Hrun;
      cbn in *.
    + destruct Hok as [Hnd Hk]. split; [exact Hnd|]. split.
      * intros raw. apply (next_key_fresh
          (mkCorpus (metatable c) (records c) (len c + count)
                    (field_names c) (id_count c)) raw). exact Hk.
      * intros _. destruct (Hcount count Hok0 eq_refl) as [-> Hlen].
        split; [exact Hlen|].
        pose proof (read_rows_len title_field rows 0 c0) as Hlen0.
        rewrite Hrun in Hlen0. simpl in Hlen0, Hlen. lia.
    + destruct Hok as [Hnd Hk]. split; [exact Hnd|]. split.
      * intros raw. apply next_key_fresh, Hk.
      * discriminate.
  - split; [constructor|]. split; [reflexivity | discriminate].
Qed.

(** ** The per-table loop of [main] and a missing title column *)

Lemma main_loop_app (titles : list string) (pre post : list table_file)
    (w : World) :
  main_loop titles (pre ++ post) w
  = match main_loop titles pre w with
    | (Ret _, w1) => main_loop titles post w1
    | (Raise e, w1) => (Raise e, w1)
    end.
Proof.
  revert w. induction pre as [|f pre IH]; intros w; simpl; [reflexivity|].
  unfold bind. destruct (process_file titles f w) as [[[]|e] w1];
    [apply IH | reflexivity].
Qed.

Lemma read_metatable_missing_title (fieldnames : list string)
    (rows : list row) (c : Corpus) :
  get_title_field fieldnames = None ->
  fst (read_metatable fieldnames rows c)
  = Raise (KeyError ("Could not find valid title field for "
                     ++ metatable c)).
Proof.
  intros H. unfold read_metatable, bind. cbn. rewrite H. reflexivity.
Qed.

Lemma process_file_missing_title (titles : list string) (f : table_file)
    (w : World) :
  is_table f = true ->
  get_title_field (fieldnames f) = None ->
  process_file titles f w
  = (Raise (KeyError ("Could not find valid title field for " ++ path f)),
     w).
Proof.
  intros Ht Hf. unfold process_file. rewrite Ht. cbn [negb].
  unfold bind at 1. unfold on_corpus.
  pose proof (read_metatable_missing_title (fieldnames f) (rows f)
                (Corpus_init (path f)) Hf) as Hr.
  destruct (read_metatable (fieldnames f) (rows f) (Corpus_init (path f)))
    as [o c]. simpl in Hr. subst o. reflexivity.
Qed.

(** C1, the claim as stated fails. With [untitled.csv] listed before
    [melville.csv], the [KeyError] of the first table ends the loop:
    [melville_matches.csv] is not written, although the same title list
    on [melville.csv] alone writes it. *)
Lemma missing_title_aborts_run :
  get_title_field (fieldnames Sample.untitled_csv) = None
  /\ main_loop ["moby dick"] [Sample.untitled_csv; Sample.melville_csv]
               world0
     = (Raise (KeyError
                 "Could not find valid title field for /corpora/untitled.csv"),
        world0)
  /\ out_files
       (snd (main_loop ["moby dick"] [Sample.melville_csv] world0))
     = [("melville_matches.csv",
         [["match_title"; "id"; "title"]; ["moby dick"; "7"; "Moby Dick"]])].
Proof. repeat split; reflexivity. Qed.

(** C1, amended. When the tables before it have been processed without
    an exception, a table whose header has none of the recognised title
    columns makes [read_metatable] raise [KeyError]; [main] does not catch
    it, so the loop ends there with that exception: the state is the one
    left by the earlier tables and the tables after it are not read. *)
Theorem missing_title_raises_and_ends_run (titles : list string)
    (pre post : list table_file) (f : table_file) (w w1 : World) :
  main_loop titles pre w = (Ret tt, w1) ->
  is_table f = true ->
  get_title_field (fieldnames f) = None ->
  main_loop titles (pre ++ f :: post) w
  = (Raise (KeyError ("Could not find valid title field for " ++ path f)),
     w1).
Proof.
  intros Hpre Ht Hf. rewrite main_loop_app, Hpre. simpl. unfold bind.
  rewrite (process_file_missing_title titles f w1 Ht Hf). reflexivity.
Qed.

Lemma missing_title_raises_and_ends_run_witness :
  let w1 := snd (main_loop ["moby dick"] [Sample.melville_csv] world0) in
  main_loop ["moby dick"] [Sample.melville_csv] world0 = (Ret tt, w1)
  /\ is_table Sample.untitled_csv = true
  /\ get_title_field (fieldnames Sample.untitled_csv) = None
  /\ main_loop ["moby dick"]
       ([Sample.melville_csv] ++ Sample.untitled_csv :: [Sample.melville_csv])
       world0
     = (Raise (KeyError ("Could not find valid title field for "
                         ++ path Sample.untitled_csv)), w1).
Proof.
  intros w1.
  assert (H1 : main_loop ["moby dick"] [Sample.melville_csv] world0
               = (Ret tt, w1)) by reflexivity.
  assert (H2 : is_table Sample.untitled_csv = true) by reflexivity.
  assert (H3 : get_title_field (fieldnames Sample.untitled_csv) = None)
    by reflexivity.
  refine (conj H1 (conj H2 (conj H3 _))).
  exact (missing_title_raises_and_ends_run ["moby dick"]
           [Sample.melville_csv] [Sample.melville_csv] Sample.untitled_csv
           world0 w1 H1 H2 H3).
Defined.

(** ** The heap cell of a [matches] dict *)

Lemma nth_last_cell {A} (h : list A) (d x : A) :
  nth (List.length h) (h ++ [x]) d = x.
Proof. rewrite nth_middle. reflexivity. Qed.

Lemma update_nth_last_cell {A} (f : A -> A) (h : list A) (x : A) :
  update_nth (List.length h) f (h ++ [x]) = h ++ [f x].
Proof. induction h as [|y h IH]; simpl; [|rewrite IH]; reflexivity. Qed.

Lemma update_nth_length {A} (n : nat) (f : A -> A) (l : list A) :
  List.length (update_nth n f l) = List.length l.
Proof.
  revert n. induction l as [|x l IH]; intros [|n]; simpl; auto.
Qed.

Lemma nth_update_nth {A} (n : nat) (f : A -> A) (l : list A) (d : A) :
  n < List.length l -> nth n (update_nth n f l) d = f (nth n l d).
Proof.
  revert n. induction l as [|x l IH]; intros [|n]; simpl; intros H;
    try lia; [reflexivity | apply IH; lia].
Qed.


(** ** Titles without a significant word *)

Lemma match_titles_no_search_word (title : string) (rest : list string)
    (corpus : Corpus) (w : World) :
  search_words title = [] ->
  match_titles (title :: rest) corpus w
  = (Raise ValueError,
     mkWorld (heap w ++ [[]]) (bad_match_file w) (out_files w)).
Proof.
  intros H. unfold match_titles, bind, alloc. simpl. unfold bind, match_title.
  rewrite H. reflexivity.
Qed.

(** C2, what the code does. A title made of stop-words only has an empty
    [search_title], [max] raises [ValueError] on it, and [match_titles]
    ends with that exception, whatever the corpus and the titles after
    it; in [get_match] the same case is guarded by [len(title) == 0]. *)
Theorem match_titles_stop_words_only_raises (rest : list string)
    (corpus : Corpus) (w : World) :
  search_words "of the" = []
  /\ fst (match_titles ("of the" :: rest) corpus w) = Raise ValueError
  /\ get_match (search_words "of the") (dict_keys (records corpus)) = None.
Proof.
  split; [reflexivity|]. split; [|reflexivity].
  rewrite match_titles_no_search_word; reflexivity.
Qed.

(** ** One candidate *)

(** C3, the claim as stated fails. The index holds the one key
    [moby_dick_0]; the words of the query "Moby Dick" are compared as
    they are with the lower-case segments of the key, no candidate is
    found and the mapping returned is empty. *)
Lemma capitalised_query_finds_no_match :
  dict_keys (records Sample.moby_corpus) = ["moby_dick_0"]
  /\ narrow "Moby" (dict_keys (records Sample.moby_corpus)) = []
  /\ match_titles ["Moby Dick"] Sample.moby_corpus world0
     = (Ret 0, mkWorld [[]] [] []).
Proof. repeat split; reflexivity. Qed.

(** ** Worlds that differ in one dict object and in the log *)

Lemma update_nth_const {A} (n : nat) (f : A -> A) (l : list A) (d : A) :
  update_nth n f l = update_nth n (fun _ => f (nth n l d)) l.
Proof.
  revert n. induction l as [|x l IH]; intros [|n]; simpl; try reflexivity.
  rewrite <- IH. reflexivity.
Qed.

Lemma update_nth_twice {A} (n : nat) (f g : A -> A) (l : list A) :
  update_nth n g (update_nth n f l) = update_nth n (fun x => g (f x)) l.
Proof.
  revert n. induction l as [|x l IH]; intros [|n]; simpl; try reflexivity.
  rewrite IH. reflexivity.
Qed.

Lemma update_nth_same {A} (n : nat) (l : list A) (d : A) :
  update_nth n (fun _ => nth n l d) l = l.
Proof.
  revert n. induction l as [|x l IH]; intros [|n]; simpl; try reflexivity.
  rewrite IH. reflexivity.
Qed.

Lemma set_cell_cell (r : ref) (w : World) : set_cell r (cell r w) [] w = w.
Proof.
  destruct w as [h l o]. unfold set_cell, cell. simpl.
  rewrite update_nth_same, app_nil_r. reflexivity.
Qed.

Lemma set_cell_set_cell (r : ref) (d1 d2 : dict Record_)
    (rows1 rows2 : list log_row) (w : World) :
  set_cell r d2 rows2 (set_cell r d1 rows1 w)
  = set_cell r d2 (rows1 ++ rows2) w.
Proof.
  unfold set_cell. simpl. rewrite update_nth_twice, app_assoc. reflexivity.
Qed.

Lemma cell_set_cell (r : ref) (d : dict Record_) (rows : list log_row)
    (w : World) :
  r < List.length (heap w) -> cell r (set_cell r d rows w) = d.
Proof.
  intros H. unfold cell, set_cell. simpl. now rewrite nth_update_nth.
Qed.

Lemma cell_set_cell_same (r : ref) (rows : list log_row) (w : World) :
  cell r (set_cell r (cell r w) rows w) = cell r w.
Proof.
  unfold cell, set_cell. simpl. rewrite update_nth_same. reflexivity.
Qed.

Lemma heap_length_set_cell (r : ref) (d : dict Record_)
    (rows : list log_row) (w : World) :
  List.length (heap (set_cell r d rows w)) = List.length (heap w).
Proof. apply update_nth_length. Qed.

Lemma mutate_run (r : ref) (f : dict Record_ -> dict Record_) (w : World) :
  mutate r f w = (Ret tt, set_cell r (f (cell r w)) [] w).
Proof.
  unfold mutate, modify, set_cell, cell.
  rewrite app_nil_r, <- update_nth_const. reflexivity.
Qed.

Lemma append_log_run (r : ref) (l : log_row) (w : World) :
  append_log l w = (Ret tt, set_cell r (cell r w) [l] w).
Proof.
  unfold append_log, modify, set_cell, cell.
  rewrite update_nth_same. reflexivity.
Qed.

(** ** The loop body of [match_titles] as a decision and a store *)

Lemma match_title_find (matches : ref) (corpus : Corpus) (title : string)
    (w : World) :
  match_title matches corpus title w
  = match find_match (records corpus) title with
    | Ret (Some rec) =>
        (Ret tt, set_cell matches (dict_set title rec (cell matches w)) [] w)
    | Ret None => (Ret tt, w)
    | Raise e => (Raise e, w)
    end.
Proof.
  unfold match_title, find_match.
  destruct (max_by_len (search_words title)) as [cur_word|];
    [|reflexivity].
  assert (Hstore : forall key,
    (rec <- getitem (records corpus) key ;;
     mutate matches (dict_set title rec)) w
    = match match dict_get key (records corpus) with
            | Some rec => Ret (Some rec)
            | None => Raise (KeyError key)
            end with
      | Ret (Some rec) =>
          (Ret tt,
           set_cell matches (dict_set title rec (cell matches w)) [] w)
      | Ret None => (Ret tt, w)
      | Raise e => (Raise e, w)
      end).
  { intros key. unfold bind, getitem.
    destruct (dict_get key (records corpus)); [apply mutate_run|reflexivity]. }
  destruct (narrow cur_word (dict_keys (records corpus))) as [|c [|c' cs]];
    [reflexivity | apply Hstore |].
  destruct (get_match _ _); [apply Hstore | reflexivity].
Qed.

(** ** The confidence filter ([filter_matches]) *)

Lemma count_terms_fst (match_ title : string) (words : list string)
    (mt : option string) (n : nat) :
  fst (count_terms match_ title words mt n)
  = match words with [] => mt | _ :: _ => Some title end.
Proof.
  revert mt n. induction words as [|word words IH]; intros mt n; simpl;
    [reflexivity|].
  rewrite IH. destruct words; reflexivity.
Qed.

Lemma count_terms_snd (match_ title : string) (words : list string)
    (mt mt' : option string) (n : nat) :
  snd (count_terms match_ title words mt n)
  = snd (count_terms match_ title words mt' n).
Proof.
  revert mt mt' n. induction words as [|word words IH]; intros mt mt' n;
    simpl; [reflexivity | apply IH].
Qed.

(** One iteration of the filter, case by case. *)
Lemma filter_match_run (r : ref) (k : string) (mt : option string)
    (w : World) :
  filter_match r k mt w
  = match dict_get k (cell r w) with
    | None => (Raise (KeyError k), w)
    | Some v =>
        if List.length (split k) =? 0 then (Raise ZeroDivisionError, w)
        else if rejected (k, v) then
          match title_after mt v with
          | None => (Raise (UnboundLocalError "metadata_title"), w)
          | Some t =>
              (Ret (Some t),
               set_cell r (dict_del k (cell r w))
                        [mkLogRow k t (overlap (k, v))] w)
          end
        else (Ret (title_after mt v), w)
    end.
Proof.
  unfold filter_match, bind at 1, load. fold (cell r w).
  unfold bind at 1, getitem.
  destruct (dict_get k (cell r w)) as [v|]; [|reflexivity].
  cbn [ret].
  pose proof (count_terms_fst k (r_title v) (split (r_title v)) mt 0) as Hf.
  pose proof (count_terms_snd k (r_title v) (split (r_title v)) mt None 0)
    as Hs.
  destruct (count_terms k (r_title v) (split (r_title v)) mt 0)
    as [mt' num] eqn:Hct.
  simpl in Hf, Hs. fold (title_after mt v) in Hf. subst mt'.
  destruct (List.length (split k) =? 0); [reflexivity|].
  unfold rejected, overlap, terms_matched. cbn [fst snd]. rewrite <- Hs.
  destruct (Qle_bool _ kMatchThreshold); [|reflexivity].
  destruct (title_after mt v) as [t|]; [|reflexivity].
  unfold bind. rewrite (append_log_run r). rewrite mutate_run.
  rewrite set_cell_set_cell, cell_set_cell_same. reflexivity.
Qed.

Lemma dict_get_app_cons {V} (k : string) (v : V) (done rest : dict V) :
  ~ In k (dict_keys done) -> dict_get k (done ++ (k, v) :: rest) = Some v.
Proof.
  induction done as [|[k0 v0] done IH]; simpl; intros Hnin.
  - rewrite String.eqb_refl. reflexivity.
  - destruct (String.eqb_spec k k0) as [->|Hne]; [exfalso; auto|].
    apply IH. auto.
Qed.

Lemma dict_del_app_cons {V} (k : string) (v : V) (done rest : dict V) :
  ~ In k (dict_keys done) -> dict_del k (done ++ (k, v) :: rest) = done ++ rest.
Proof.
  induction done as [|[k0 v0] done IH]; simpl; intros Hnin.
  - rewrite String.eqb_refl. reflexivity.
  - destruct (String.eqb_spec k k0) as [->|Hne]; [exfalso; auto|].
    rewrite IH; auto.
Qed.

Lemma worded_run (k : string) (v : Record_) (mt : option string) :
  worded (k, v) ->
  (List.length (split k) =? 0) = false /\ title_after mt v = Some (r_title v).
Proof.
  unfold worded, title_after. simpl. intros [Hk Hv]. split.
  - destruct (split k); [congruence | reflexivity].
  - destruct (split (r_title v)); [congruence | reflexivity].
Qed.

(** The loop of the filter over the entries [rest] still to be visited,
    [done] being the entries already visited and kept. *)
Lemma filter_loop_run (r : ref) (rest : dict Record_) :
  forall (done : dict Record_) (mt : option string) (w : World),
    r < List.length (heap w) ->
    cell r w = done ++ rest ->
    NoDup (dict_keys (done ++ rest)) ->
    Forall worded rest ->
    filter_loop r (dict_keys rest) mt w
    = (Ret tt,
       set_cell r (done ++ filter kept rest)
                (map log_of (filter rejected rest)) w).
Proof.
  induction rest as [|[k v] rest IH]; intros done mt w Hr Hcell Hnd Hw.
  - simpl. rewrite <- Hcell, set_cell_cell. reflexivity.
  - inversion Hw as [|? ? Hkv Hrest]; subst.
    assert (Hnin : ~ In k (dict_keys done)).
    { rewrite dict_keys_app in Hnd. simpl in Hnd.
      apply NoDup_remove_2 in Hnd. rewrite in_app_iff in Hnd. tauto. }
    assert (Hnd' : NoDup (dict_keys (done ++ rest))).
    { rewrite dict_keys_app in *. simpl in Hnd.
      apply NoDup_remove_1 in Hnd. exact Hnd. }
    destruct (worded_run k v mt Hkv) as [Hlen Hta].
    cbn [dict_keys map fst filter_loop]. unfold bind.
    rewrite filter_match_run, Hcell, dict_get_app_cons, Hlen, Hta by exact Hnin.
    cbn [filter]. unfold kept at 1.
    destruct (rejected (k, v)) eqn:Hrej; cbn [negb map].
    + rewrite dict_del_app_cons by exact Hnin.
      rewrite (IH done); try assumption.
      * rewrite set_cell_set_cell. reflexivity.
      * rewrite heap_length_set_cell. exact Hr.
      * apply cell_set_cell. exact Hr.
    + rewrite (IH (done ++ [(k, v)])).
      * rewrite <- app_assoc. reflexivity.
      * exact Hr.
      * rewrite Hcell, <- app_assoc. reflexivity.
      * rewrite <- app_assoc. exact Hnd.
      * exact Hrest.
Qed.

(** X24. When every query title and every matched record's title has a
    word, the filter returns; it leaves in the dict the entries whose overlap
    exceeds the threshold, in their order, and has logged the others,
    each with the title of its own record. *)
Lemma filter_matches_run (r : ref) (w : World) :
  r < List.length (heap w) ->
  NoDup (dict_keys (cell r w)) ->
  Forall worded (cell r w) ->
  filter_matches r w
  = (Ret PyNone,
     set_cell r (filter kept (cell r w))
              (map log_of (filter rejected (cell r w))) w).
Proof.
  intros Hr Hnd Hw. unfold filter_matches, bind at 1, load. fold (cell r w).
  unfold bind. rewrite (filter_loop_run r (cell r w) [] None w); auto.
Qed.

(** ** [match_titles] as a function of the titles and the records *)

Lemma match_loop_run (r : ref) (corpus : Corpus) (titles : list string) :
  forall w : World,
    r < List.length (heap w) ->
    match_loop r corpus titles w
    = (fst (collect (records corpus) titles (cell r w)),
       set_cell r (snd (collect (records corpus) titles (cell r w))) [] w).
Proof.
  induction titles as [|title rest IH]; intros w Hr; simpl.
  - rewrite set_cell_cell. reflexivity.
  - unfold bind. rewrite match_title_find.
    destruct (find_match (records corpus) title) as [[rec|]|e].
    + rewrite IH by (rewrite heap_length_set_cell; exact Hr).
      rewrite cell_set_cell by exact Hr.
      rewrite set_cell_set_cell. reflexivity.
    + apply IH, Hr.
    + simpl. rewrite set_cell_cell. reflexivity.
Qed.

Lemma filter_loop_sift (r : ref) (keys : list string) :
  forall (mt : option string) (w : World),
    r < List.length (heap w) ->
    filter_loop r keys mt w
    = (fst (fst (sift keys mt (cell r w))),
       set_cell r (snd (fst (sift keys mt (cell r w))))
                (snd (sift keys mt (cell r w))) w).
Proof.
  induction keys as [|k rest IH]; intros mt w Hr; simpl.
  - rewrite set_cell_cell. reflexivity.
  - unfold bind. rewrite filter_match_run.
    destruct (dict_get k (cell r w)) as [v|];
      [|simpl; rewrite set_cell_cell; reflexivity].
    destruct (List.length (split k) =? 0);
      [simpl; rewrite set_cell_cell; reflexivity|].
    destruct (rejected (k, v)).
    + destruct (title_after mt v) as [t|];
        [|simpl; rewrite set_cell_cell; reflexivity].
      rewrite IH by (rewrite heap_length_set_cell; exact Hr).
      rewrite cell_set_cell by exact Hr.
      rewrite set_cell_set_cell.
      destruct (sift rest (Some t) (dict_del k (cell r w))) as [[o d'] rows].
      reflexivity.
    + apply IH, Hr.
Qed.

Lemma set_cell_last (h : list (dict Record_)) (x d : dict Record_)
    (l rows : list log_row) (o : dict (list (list string))) :
  set_cell (List.length h) d rows (mkWorld (h ++ [x]) l o)
  = mkWorld (h ++ [d]) (l ++ rows) o.
Proof. unfold set_cell. simpl. rewrite update_nth_last_cell. reflexivity. Qed.

(** [match_titles] allocates one dict, leaves in it the mapping computed
    by [matcher], appends the rows computed by [matcher] to the log, and
    touches nothing else. *)
Lemma match_titles_run (titles : list string) (corpus : Corpus) (w : World) :
  match_titles titles corpus w
  = (match fst (fst (matcher (records corpus) titles)) with
     | Ret _ => Ret (List.length (heap w))
     | Raise e => Raise e
     end,
     mkWorld (heap w ++ [snd (fst (matcher (records corpus) titles))])
             (bad_match_file w ++ snd (matcher (records corpus) titles))
             (out_files w)).
Proof.
  unfold match_titles, bind at 1, alloc.
  set (r := List.length (heap w)).
  set (w1 := mkWorld (heap w ++ [[]]) (bad_match_file w) (out_files w)).
  assert (Hr : r < List.length (heap w1))
    by (unfold w1, r; simpl; rewrite length_app; simpl; lia).
  assert (Hcell : cell r w1 = [])
    by (unfold cell, w1, r; simpl; apply nth_last_cell).
  unfold bind at 1. rewrite (match_loop_run r corpus titles w1 Hr), Hcell.
  unfold matcher.
  destruct (collect (records corpus) titles []) as [[[]|e] d]; cbn [fst snd].
  - unfold bind at 1, filter_matches, bind at 1, load.
    fold (cell r (set_cell r d [] w1)).
    assert (Hr' : r < List.length (heap (set_cell r d [] w1)))
      by (rewrite heap_length_set_cell; exact Hr).
    unfold bind at 1. rewrite (filter_loop_sift r _ None _ Hr').
    rewrite (cell_set_cell r d [] w1 Hr), set_cell_set_cell.
    destruct (sift (dict_keys d) None d) as [[[[]|e] d'] rows];
      cbn [fst snd app]; unfold w1, r; rewrite set_cell_last; reflexivity.
  - unfold w1, r. rewrite set_cell_last, app_nil_r. reflexivity.
Qed.

(** C3, amended. When the index holds the one key [moby_dick_0], for a
    record whose title is "Moby Dick", the lower-case query "moby dick"
    is matched to that record: the mapping returned by [match_titles]
    binds the query to it, and nothing is logged. *)
Theorem lower_case_query_single_candidate (corpus : Corpus) (rec : Record_)
    (w : World) :
  records corpus = [("moby_dick_0", rec)] ->
  r_title rec = "Moby Dick" ->
  match_titles ["moby dick"] corpus w
  = (Ret (List.length (heap w)),
     mkWorld (heap w ++ [[("moby dick", rec)]]) (bad_match_file w)
             (out_files w)).
Proof.
  intros Hrec Htitle. rewrite match_titles_run, Hrec.
  assert (Hm : matcher [("moby_dick_0", rec)] ["moby dick"]
               = (Ret tt, [("moby dick", rec)], [])).
  { destruct rec as [i t m]. simpl in Htitle. subst t. reflexivity. }
  rewrite Hm. cbn [fst snd]. rewrite app_nil_r. reflexivity.
Qed.

Lemma lower_case_query_single_candidate_witness :
  records Sample.moby_corpus = [("moby_dick_0", Sample.moby_record)]
  /\ r_title Sample.moby_record = "Moby Dick"
  /\ match_titles ["moby dick"] Sample.moby_corpus world0
     = (Ret 0, mkWorld [[("moby dick", Sample.moby_record)]] [] []).
Proof.
  refine (conj eq_refl (conj eq_refl _)).
  exact (lower_case_query_single_candidate Sample.moby_corpus
           Sample.moby_record world0 eq_refl eq_refl).
Defined.

(** ** The filter: the title it logs and the value it returns *)

Example fitzgerald_corpus_read :
  read_metatable (fieldnames Sample.fitzgerald_csv)
                 (rows Sample.fitzgerald_csv)
                 (Corpus_init (path Sample.fitzgerald_csv))
  = (Ret tt, Sample.fitzgerald_corpus).
Proof. reflexivity. Qed.

(** C6, what the code does. [metadata_title] is assigned inside the loop
    over the words of the record's title. For the table
    [fitzgerald.csv], whose first title cell is empty, and the queries
    "great gatsby novel text" and "0", both queries are accepted; the
    filter rejects both, the first with an overlap of exactly one half,
    and logs the second with the title of the first record, not its own.
    With the query "0" alone the variable is unbound and the filter
    raises: the entry is neither removed nor logged. *)
Theorem filter_logs_title_of_other_record :
  let titles := ["great gatsby novel text"; "0"] in
  let accepted := [("great gatsby novel text", Sample.gatsby_record);
                   ("0", Sample.blank_record)] in
  match_loop 0 Sample.fitzgerald_corpus titles (mkWorld [[]] [] [])
    = (Ret tt, mkWorld [accepted] [] [])
  /\ filter_matches 0 (mkWorld [accepted] [] [])
     = (Ret PyNone,
        mkWorld [[]]
          [mkLogRow "great gatsby novel text" "The Great Gatsby" (2 # 4);
           mkLogRow "0" "The Great Gatsby" (0 # 1)] [])
  /\ r_title Sample.blank_record = ""
  /\ filter_matches 0 (mkWorld [[("0", Sample.blank_record)]] [] [])
     = (Raise (UnboundLocalError "metadata_title"),
        mkWorld [[("0", Sample.blank_record)]] [] [])
  /\ rejected ("0", Sample.blank_record) = true.
Proof. repeat split; reflexivity. Qed.

Lemma filter_matches_sift (r : ref) (w : World) :
  r < List.length (heap w) ->
  filter_matches r w
  = (match fst (fst (sift (dict_keys (cell r w)) None (cell r w))) with
     | Ret _ => Ret PyNone
     | Raise e => Raise e
     end,
     set_cell r (snd (fst (sift (dict_keys (cell r w)) None (cell r w))))
              (snd (sift (dict_keys (cell r w)) None (cell r w))) w).
Proof.
  intros Hr. unfold filter_matches, bind at 1, load. fold (cell r w).
  unfold bind. rewrite (filter_loop_sift r _ None w Hr).
  destruct (sift (dict_keys (cell r w)) None (cell r w)) as [[[[]|e] d'] rows];
    reflexivity.
Qed.



(** C8, what the code does. [filter_matches] has no [return] statement:
    on every dict and in every state it returns [None] or raises, so it
    never returns the mapping it was given, which its docstring says it
    does. On the mapping that binds "moby dick" to the record of
    "Moby Dick" it returns [None] and leaves the mapping as it is. *)
Theorem filter_matches_returns_None (matches : ref) (w : World) :
  (fst (filter_matches matches w) = Ret PyNone
   \/ exists e, fst (filter_matches matches w) = Raise e)
  /\ filter_matches 0 (mkWorld [[("moby dick", Sample.moby_record)]] [] [])
     = (Ret PyNone, mkWorld [[("moby dick", Sample.moby_record)]] [] []).
Proof.
  split; [|reflexivity].
  unfold filter_matches, bind, load.
  destruct (filter_loop matches _ None w) as [[[]|e] w'];
    [left; reflexivity | right; exists e; reflexivity].
Qed.

(** ** Candidate narrowing *)

Lemma mem_In (w : string) (l : list string) : mem w l = true <-> In w l.
Proof.
  unfold mem. rewrite existsb_exists. split.
  - intros (x & Hin & Heq). apply String.eqb_eq in Heq. now subst.
  - intros Hin. exists w. split; [exact Hin | apply String.eqb_refl].
Qed.

Lemma narrow_In (cur_word key : string) (candidates : list string) :
  In key (narrow cur_word candidates)
  <-> In key candidates /\ In cur_word (split_on "_" key).
Proof.
  unfold narrow, has_word. rewrite filter_In, mem_In. reflexivity.
Qed.

(** Joining words that hold no underscore and splitting again gives the
    words back. *)
Lemma split_on_join (ws : list string) :
  ws <> [] ->
  Forall (free_of (Ascii.eqb "_")) ws ->
  split_on "_" (join "_" ws) = ws.
Proof.
  intros Hne Hall. induction Hall as [|x ws Hx Hall IH]; [congruence|].
  destruct ws as [|y ws].
  - simpl. apply split_by_free, Hx.
  - change (join "_" (x :: y :: ws))
      with (x ++ String "_" (join "_" (y :: ws)))%string.
    unfold split_on in *. rewrite split_by_app by reflexivity.
    rewrite (split_by_free _ x Hx), IH by discriminate. reflexivity.
Qed.

(** C7, the claim as stated fails. The query word "0" is none of the
    words of "Moby Dick", yet it equals the last segment of the key
    [moby_dick_0]: the key is kept as a candidate and the loop of
    [match_titles] binds the query "0" to the record. *)
Lemma suffix_segment_matches_query_word :
  t_words "Moby Dick" = ["moby"; "dick"]
  /\ ~ In "0" (t_words "Moby Dick")
  /\ make_key "Moby Dick" 0 = "moby_dick_0"
  /\ has_word "0" (make_key "Moby Dick" 0) = true
  /\ narrow "0" (dict_keys (records Sample.moby_corpus)) = ["moby_dick_0"]
  /\ find_match (records Sample.moby_corpus) "0"
     = Ret (Some Sample.moby_record).
Proof.
  split; [reflexivity|]. split.
  - simpl. intros [H|[H|[]]]; discriminate H.
  - repeat split; reflexivity.
Qed.

(** C7, amended. Narrowing keeps a key exactly when the query word equals
    one of the segments of the key split on the underscore, the suffix
    being one of them: for the key made from a title and a counter value,
    the word is a segment of the joined words of the title or it is the
    decimal of the counter value. *)
Theorem narrow_keeps_keys_with_segment (cur_word key title : string)
    (candidates : list string) (n : nat) :
  (In key (narrow cur_word candidates)
   <-> In key candidates /\ In cur_word (split_on "_" key))
  /\ (has_word cur_word (make_key title n) = true
      <-> In cur_word (split_on "_" (join "_" (t_words title)))
          \/ cur_word = str n).
Proof.
  split; [apply narrow_In|].
  unfold has_word, make_key. rewrite mem_In, split_on_suffixed, in_app_iff.
  simpl. intuition congruence.
Qed.

(** ** Determinism and the tie-break *)

(** [max_by_len] returns the leftmost of the longest words. *)
Lemma max_by_len_from_leftmost (l : list string) :
  forall best : string,
    let m := max_by_len_from best l in
    exists l1 l2,
      best :: l = l1 ++ m :: l2
      /\ Forall (fun x => String.length x < String.length m) l1
      /\ Forall (fun x => String.length x <= String.length m) l2.
Proof.
  induction l as [|x l IH]; intros best; simpl.
  - exists [], []. repeat split; constructor.
  - destruct (String.length best <? String.length x) eqn:Hlt.
    + apply Nat.ltb_lt in Hlt.
      destruct (IH x) as (l1 & l2 & Heq & H1 & H2).
      remember (max_by_len_from x l) as m eqn:Hm. clear Hm IH.
      assert (Hx : String.length x <= String.length m).
      { destruct l1 as [|y l1]; simpl in Heq; injection Heq as Hy _.
        - rewrite <- Hy. lia.
        - subst y. inversion H1; subst. lia. }
      exists (best :: l1), l2. split; [simpl; f_equal; exact Heq|].
      split; [|exact H2]. constructor; [lia | exact H1].
    + apply Nat.ltb_ge in Hlt.
      destruct (IH best) as (l1 & l2 & Heq & H1 & H2).
      remember (max_by_len_from best l) as m eqn:Hm. clear Hm IH.
      destruct l1 as [|y l1]; simpl in Heq; injection Heq as Hy Hl.
      * subst m l. exists [], (x :: l2). split; [reflexivity|].
        split; constructor; assumption.
      * subst y l. exists (best :: x :: l1), l2. split; [reflexivity|].
        split; [|exact H2].
        inversion H1 as [|? ? Hb H1']; subst.
        constructor; [exact Hb|]. constructor; [lia | exact H1'].
Qed.

Lemma max_by_len_leftmost (l : list string) (w : string) :
  max_by_len l = Some w ->
  exists l1 l2,
    l = l1 ++ w :: l2
    /\ Forall (fun x => String.length x < String.length w) l1
    /\ Forall (fun x => String.length x <= String.length w) l2.
Proof.
  destruct l as [|b l]; simpl; [discriminate|].
  intros [= <-]. apply max_by_len_from_leftmost.
Qed.

(** A word at least as long as all the words after it is kept. *)
Lemma max_by_len_from_longest (w : string) (l2 : list string) :
  Forall (fun x => String.length x <= String.length w) l2 ->
  max_by_len_from w l2 = w.
Proof.
  induction 1 as [|x l2 Hx _ IH]; simpl; [reflexivity|].
  apply Nat.ltb_ge in Hx. rewrite Hx. exact IH.
Qed.

(** Shorter words before the first longest word are passed over. *)
Lemma max_by_len_from_passes (w : string) (l2 l1 : list string) :
  forall best,
    String.length best < String.length w ->
    Forall (fun x => String.length x < String.length w) l1 ->
    Forall (fun x => String.length x <= String.length w) l2 ->
    max_by_len_from best (l1 ++ w :: l2) = w.
Proof.
  induction l1 as [|x l1 IH]; intros best Hbest H1 H2; simpl.
  - apply Nat.ltb_lt in Hbest. rewrite Hbest.
    apply max_by_len_from_longest, H2.
  - inversion H1 as [|? ? Hx H1']; subst.
    destruct (String.length best <? String.length x); apply IH; assumption.
Qed.

Lemma max_by_len_selects (l1 l2 : list string) (w : string) :
  Forall (fun x => String.length x < String.length w) l1 ->
  Forall (fun x => String.length x <= String.length w) l2 ->
  max_by_len (l1 ++ w :: l2) = Some w.
Proof.
  intros H1 H2. destruct l1 as [|b l1]; simpl; f_equal.
  - apply max_by_len_from_longest, H2.
  - inversion H1; subst. apply max_by_len_from_passes; assumption.
Qed.

Lemma get_match_selects_leftmost (l1 l2 candidates : list string)
    (w : string) :
  Forall (fun x => String.length x < String.length w) l1 ->
  Forall (fun x => String.length x <= String.length w) l2 ->
  get_match (l1 ++ w :: l2) candidates
  = match narrow w candidates with
    | [c] => Some c
    | new_candidates =>
        get_match (remove_first w (l1 ++ w :: l2)) new_candidates
    end.
Proof.
  intros H1 H2. pose proof (max_by_len_selects l1 l2 w H1 H2) as Hmax.
  destruct l1 as [|b l1]; cbn [app] in *;
    rewrite get_match_equation_2; simpl in Hmax; injection Hmax as ->;
    destruct (narrow w candidates) as [|c [|c' rest]]; reflexivity.
Qed.

(** C10. Two runs of [match_titles] on the same titles and on corpora
    with the same records, in the same order, end the same way, leave the
    same mapping in the dict they allocate and append the same rows to
    the log, whatever else the two states hold. The tie-break is the
    leftmost of the longest words: on a list of words in which [w] is
    longer than every word before it and at least as long as every word
    after it, [max(..., key=len)] returns [w]; [get_match] narrows the
    candidates by [w] and goes on without its first occurrence; and the
    loop body of [match_titles], on a title with these significant
    words, takes its candidates from the keys that hold [w]. *)
Theorem match_titles_deterministic (titles : list string)
    (corpus1 corpus2 : Corpus) (w1 w2 : World) :
  records corpus1 = records corpus2 ->
  (exists (d : dict Record_) (logged : list log_row),
     snd (match_titles titles corpus1 w1)
       = mkWorld (heap w1 ++ [d]) (bad_match_file w1 ++ logged)
                 (out_files w1)
     /\ snd (match_titles titles corpus2 w2)
       = mkWorld (heap w2 ++ [d]) (bad_match_file w2 ++ logged)
                 (out_files w2)
     /\ ((fst (match_titles titles corpus1 w1) = Ret (List.length (heap w1))
          /\ fst (match_titles titles corpus2 w2)
             = Ret (List.length (heap w2)))
         \/ exists e, fst (match_titles titles corpus1 w1) = Raise e
                      /\ fst (match_titles titles corpus2 w2) = Raise e))
  /\ (forall (l1 l2 : list string) (w : string),
        Forall (fun x => String.length x < String.length w) l1 ->
        Forall (fun x => String.length x <= String.length w) l2 ->
        max_by_len (l1 ++ w :: l2) = Some w
        /\ (forall candidates,
              get_match (l1 ++ w :: l2) candidates
              = match narrow w candidates with
                | [c] => Some c
                | new_candidates =>
                    get_match (remove_first w (l1 ++ w :: l2))
                              new_candidates
                end)
        /\ (forall (matches : ref) (title : string) (wld : World),
              search_words title = l1 ++ w :: l2 ->
              let store key :=
                (rec <- getitem (records corpus1) key ;;
                 mutate matches (dict_set title rec)) wld in
              match_title matches corpus1 title wld
              = match narrow w (dict_keys (records corpus1)) with
                | [] => (Ret tt, wld)
                | [c] => store c
                | candidates =>
                    match get_match (remove_first w (l1 ++ w :: l2))
                                    candidates with
                    | Some m => store m
                    | None => (Ret tt, wld)
                    end
                end)).
Proof.
  intros Hrec. split.
  - rewrite !match_titles_run, Hrec. cbn [fst snd].
    destruct (matcher (records corpus2) titles) as [[o d] logged].
    exists d, logged. cbn [fst snd]. split; [reflexivity|].
    split; [reflexivity|].
    destruct o as [[]|e]; [left; split; reflexivity|].
    right. exists e. split; reflexivity.
  - intros l1 l2 w H1 H2.
    pose proof (max_by_len_selects l1 l2 w H1 H2) as Hmax.
    split; [exact Hmax|]. split.
    + intros candidates. apply get_match_selects_leftmost; assumption.
    + intros matches title wld Hsw. cbv zeta. unfold match_title.
      rewrite Hsw, Hmax.
      destruct (narrow w (dict_keys (records corpus1))) as [|c [|c' rest]];
        try reflexivity.
      destruct (get_match _ (c :: c' :: rest)); reflexivity.
Qed.

Lemma match_titles_deterministic_witness :
  let corpus2 := mkCorpus "copy.csv" (records Sample.moby_corpus) 0 [] 7 in
  let w2 := mkWorld [[("emma", Sample.moby_record)]] [] [] in
  records Sample.moby_corpus = records corpus2
  /\ nth 0 (heap (snd (match_titles ["moby dick"] Sample.moby_corpus world0)))
         []
     = nth 1 (heap (snd (match_titles ["moby dick"] corpus2 w2))) []
  /\ max_by_len (["of"] ++ "moby" :: ["dick"; "a"]) = Some "moby".
Proof.
  intros corpus2 w2. split; [reflexivity|].
  destruct (match_titles_deterministic ["moby dick"] Sample.moby_corpus
              corpus2 world0 w2 eq_refl)
    as [(d & logged & H1 & H2 & _) Htie].
  split; [rewrite H1, H2; reflexivity|].
  apply (Htie ["of"] ["dick"; "a"] "moby").
  - repeat constructor.
  - repeat constructor.
Defined.

(** * More of the code *)

(** ** [Corpus.get_title_field] *)

(** X1. The title column is the first column of the header, in header order,
    whose name is one of [TITLE], [title], [display_title]; the order of
    these three names plays no part. *)
Theorem get_title_field_first (fields : list string) (f : string) :
  get_title_field fields = Some f
  <-> exists pre post,
        fields = pre ++ f :: post
        /\ In f kTitleFields
        /\ Forall (fun g => ~ In g kTitleFields) pre.
Proof.
  split.
  - induction fields as [|g fields IH]; cbn [get_title_field];
      [discriminate|].
    destruct (mem g kTitleFields) eqn:Hg.
    + intros H. injection H as H. subst g. exists [], fields.
      split; [reflexivity|]. split; [apply mem_In, Hg | constructor].
    + intros H. destruct (IH H) as (pre & post & -> & Hf & Hpre).
      exists (g :: pre), post. repeat split; [exact Hf|].
      constructor; [|exact Hpre].
      rewrite <- mem_In, Hg. discriminate.
  - intros (pre & post & -> & Hf & Hpre).
    induction Hpre as [|g pre Hg Hpre IH]; cbn [app get_title_field].
    + rewrite (proj2 (mem_In _ _) Hf). reflexivity.
    + destruct (mem g kTitleFields) eqn:Hm; [|exact IH].
      apply (proj1 (mem_In _ _)) in Hm. contradiction.
Qed.

Lemma In_kTitleFields (g : string) :
  In g kTitleFields <-> g = "TITLE" \/ g = "title" \/ g = "display_title".
Proof.
  unfold kTitleFields, kChicagoTitle, kChadwyckTitle, kGaleTitle. simpl.
  intuition (subst; auto).
Qed.

(** X2. No title column is found exactly when no column of the header is
    named [TITLE], [title] or [display_title], the comparison being
    case-sensitive; [read_metatable] then raises its [KeyError] and
    stores no record, whatever the rows. *)
Theorem get_title_field_none (fields : list string) (rows : list row)
    (c : Corpus) :
  (get_title_field fields = None
   <-> Forall (fun g => g <> "TITLE" /\ g <> "title"
                        /\ g <> "display_title") fields)
  /\ (get_title_field fields = None ->
      fst (read_metatable fields rows c)
      = Raise (KeyError ("Could not find valid title field for "
                         ++ metatable c))
      /\ records (snd (read_metatable fields rows c)) = records c).
Proof.
  split.
  - induction fields as [|g fields IH]; cbn [get_title_field].
    + split; [constructor | reflexivity].
    + destruct (mem g kTitleFields) eqn:Hg.
      * split; [discriminate|]. intros H. inversion H as [|? ? Hn _]; subst.
        apply (proj1 (mem_In _ _)) in Hg. apply In_kTitleFields in Hg.
        exfalso. intuition congruence.
      * rewrite IH. split.
        -- intros H. constructor; [|exact H].
           assert (Hn : ~ In g kTitleFields)
             by (rewrite <- mem_In, Hg; discriminate).
           rewrite In_kTitleFields in Hn. intuition congruence.
        -- intros H. inversion H; assumption.
  - intros H. unfold read_metatable, bind. cbn. rewrite H. split; reflexivity.
Qed.

(** ** [Corpus.get_title]: what the key does not depend on *)

Lemma lower_char_idem (c : ascii) : lower_char (lower_char c) = lower_char c.
Proof.
  destruct c as [[] [] [] [] [] [] [] []]; reflexivity.
Qed.

Lemma is_space_lower_char (c : ascii) : is_space (lower_char c) = is_space c.
Proof.
  destruct c as [[] [] [] [] [] [] [] []]; reflexivity.
Qed.

Lemma lower_idem (s : string) : lower (lower s) = lower s.
Proof.
  induction s as [|c s IH]; simpl; [|rewrite lower_char_idem, IH];
    reflexivity.
Qed.

Lemma split_by_lower (s : string) :
  split_by is_space (lower s) = map lower (split_by is_space s).
Proof.
  induction s as [|c s IH]; [reflexivity|].
  cbn [lower split_by]. rewrite is_space_lower_char, IH.
  destruct (is_space c); [reflexivity|].
  pose proof (split_by_not_nil is_space s) as Hne.
  destruct (split_by is_space s); [congruence | reflexivity].
Qed.

Lemma split_lower (s : string) : split (lower s) = map lower (split s).
Proof.
  unfold split. rewrite split_by_lower.
  induction (split_by is_space s) as [|w ws IH]; [reflexivity|].
  cbn [map filter]. rewrite IH. destruct w; reflexivity.
Qed.

Lemma norm_word_lower (w : string) : norm_word (lower w) = norm_word w.
Proof. unfold norm_word. rewrite lower_idem. reflexivity. Qed.

Lemma t_words_lower (title : string) : t_words (lower title) = t_words title.
Proof.
  unfold t_words. rewrite split_lower.
  induction (split title) as [|w ws IH]; [reflexivity|].
  cbn [map filter]. rewrite norm_word_lower.
  destruct (negb (mem (norm_word w) kStopWords)); cbn [map];
    rewrite ?norm_word_lower, IH; reflexivity.
Qed.

(** X3. The key does not depend on the case of the title: a title and
    its lower-case form get the same key at the same counter value. *)
Theorem make_key_case_insensitive (title : string) (n : nat) :
  make_key (lower title) n = make_key title n.
Proof. unfold make_key. rewrite t_words_lower. reflexivity. Qed.

Lemma split_app_space (a b : string) :
  split (a ++ String " " b) = split a ++ split b.
Proof.
  unfold split. rewrite split_by_app by reflexivity. apply filter_app.
Qed.

Lemma t_words_app_space (a b : string) :
  t_words (a ++ String " " b) = t_words a ++ t_words b.
Proof.
  unfold t_words. rewrite split_app_space, filter_app, map_app. reflexivity.
Qed.

(** X4. Stop-words between the words of a title leave no trace in the
    key: a run [w] of words that are all stop-words (after lower-casing
    and stripping) can be taken out. *)
Theorem make_key_drops_stop_words (a w b : string) (n : nat) :
  t_words w = [] ->
  make_key (a ++ " " ++ w ++ " " ++ b) n = make_key (a ++ " " ++ b) n.
Proof.
  intros Hw. unfold make_key.
  change (a ++ " " ++ w ++ " " ++ b)%string
    with (a ++ String " " (w ++ String " " b))%string.
  change (a ++ " " ++ b)%string with (a ++ String " " b)%string.
  rewrite !t_words_app_space, Hw. reflexivity.
Qed.

Lemma make_key_drops_stop_words_witness :
  t_words "of The" = []
  /\ make_key ("Call" ++ " " ++ "of The" ++ " " ++ "Wild") 4
     = make_key ("Call" ++ " " ++ "Wild") 4.
Proof.
  refine (conj eq_refl _).
  exact (make_key_drops_stop_words "Call" "of The" "Wild" 4 eq_refl).
Defined.

(** ** [Corpus.read_metatable]: what the index holds *)

Lemma read_rows_nth (title_field : string) (rows : list row) :
  forall (count : nat) (c : Corpus),
    index_ok c ->
    Forall (fun r => dict_mem title_field r = true) rows ->
    let c' := snd (read_rows title_field rows count c) in
    metatable c' = metatable c
    /\ field_names c' = field_names c
    /\ id_count c' = id_count c + List.length rows
    /\ exists new,
         records c' = records c ++ new
         /\ List.length new = List.length rows
         /\ forall i r, nth_error rows i = Some r ->
              exists raw,
                dict_get title_field r = Some raw
                /\ nth_error new i
                   = Some (make_key raw (id_count c + i),
                           mkRecord (make_key raw (id_count c + i)) raw r).
Proof.
  induction rows as [|r rows IH]; intros count c Hok Hall; simpl.
  - repeat split; try lia. exists []. rewrite app_nil_r.
    repeat split. intros [|i] r H; discriminate H.
  - inversion Hall as [|? ? Hr Hrest]; subst. unfold bind.
    pose proof (read_row_ok title_field r count c Hok) as Hok'.
    pose proof (read_row_run title_field r count c Hok) as Hrun.
    unfold dict_mem in Hr.
    destruct (dict_get title_field r) as [raw|] eqn:Hget; [|discriminate].
    cbv zeta in Hrun. rewrite Hrun in *. cbn [fst snd] in *.
    destruct (IH (count + 1) _ Hok' Hrest) as (Hm & Hf & Hid & new & Hnew & Hlen & Hnth).
    cbn [metatable field_names id_count records] in *.
    repeat split; try assumption; try lia.
    exists ((make_key raw (id_count c),
             mkRecord (make_key raw (id_count c)) raw r) :: new).
    split; [rewrite Hnew, <- app_assoc; reflexivity|].
    split; [simpl; lia|].
    intros [|i] r' Hr'; simpl in Hr'.
    + injection Hr' as <-. exists raw. rewrite Nat.add_0_r. auto.
    + destruct (Hnth i r' Hr') as (raw' & Hg' & Hn').
      exists raw'. split; [exact Hg'|]. simpl.
      replace (id_count c + S i) with (id_count c + 1 + i) by lia.
      exact Hn'.
Qed.

(** X5. When the header has a title column and every row has a cell in
    it, [read_metatable] on a new [Corpus] returns and indexes every row:
    the row at position [i] is stored at position [i] of [records], under
    the key made from its title and [i], in a record that keeps that key
    as its id, the raw title and the whole row; [len] and [id_count] end
    as the number of rows. *)
Theorem read_metatable_indexes_rows (path : string)
    (fieldnames : list string) (rows : list row) (title_field : string) :
  get_title_field fieldnames = Some title_field ->
  Forall (fun r => dict_mem title_field r = true) rows ->
  let res := read_metatable fieldnames rows (Corpus_init path) in
  fst res = Ret tt
  /\ len (snd res) = List.length rows
  /\ id_count (snd res) = List.length rows
  /\ field_names (snd res) = fieldnames
  /\ List.length (records (snd res)) = List.length rows
  /\ forall i r, nth_error rows i = Some r ->
       exists raw,
         dict_get title_field r = Some raw
         /\ nth_error (records (snd res)) i
            = Some (make_key raw i, mkRecord (make_key raw i) raw r).
Proof.
  intros Htf Hall. unfold read_metatable, bind. cbn. rewrite Htf.
  set (c0 := mkCorpus path [] 0 fieldnames 0).
  assert (Hok0 : index_ok c0) by (split; [constructor | intros k []]).
  pose proof (read_rows_total title_field rows 0 c0 Hok0 Hall) as Htot.
  pose proof (read_rows_len title_field rows 0 c0) as Hlen0.
  destruct (read_rows_nth title_field rows 0 c0 Hok0 Hall)
    as (_ & Hf & Hid & new & Hnew & Hlen & Hnth).
  destruct (read_rows title_field rows 0 c0) as [[count|e] c] eqn:Hrun;
    cbn [fst snd] in *; [|discriminate].
  injection Htot as ->. cbn in *.
  repeat split; try assumption; try lia.
  - rewrite Hnew. exact Hlen.
  - intros i r Hr. rewrite Hnew. exact (Hnth i r Hr).
Qed.

Lemma read_metatable_indexes_rows_witness :
  get_title_field (fieldnames Sample.fitzgerald_csv) = Some "title"
  /\ Forall (fun r => dict_mem "title" r = true) (rows Sample.fitzgerald_csv)
  /\ nth_error
       (records (snd (read_metatable (fieldnames Sample.fitzgerald_csv)
                        (rows Sample.fitzgerald_csv) (Corpus_init "f.csv"))))
       1
     = Some ("great_gatsby_1", Sample.gatsby_record).
Proof.
  assert (H1 : get_title_field (fieldnames Sample.fitzgerald_csv)
               = Some "title") by reflexivity.
  assert (H2 : Forall (fun r => dict_mem "title" r = true)
                      (rows Sample.fitzgerald_csv))
    by (repeat constructor).
  refine (conj H1 (conj H2 _)).
  destruct (read_metatable_indexes_rows "f.csv" _ _ _ H1 H2)
    as (_ & _ & _ & _ & _ & Hnth).
  destruct (Hnth 1 Sample.gatsby_row eq_refl) as (raw & Hraw & Hrec).
  injection Hraw as <-. exact Hrec.
Defined.

(** ** [get_match]: no guess *)

Lemma max_by_len_from_In (t : list string) :
  forall b, In (max_by_len_from b t) (b :: t).
Proof.
  induction t as [|x t IH]; intros b; simpl; [now left|].
  destruct (String.length b <? String.length x).
  - right. apply IH.
  - destruct (IH b) as [H|H]; auto.
Qed.

Lemma remove_first_length (x : string) (t : list string) :
  In x t -> List.length (remove_first x t) < List.length t.
Proof.
  induction t as [|y t IH]; simpl; intros H; [contradiction|].
  destruct (String.eqb_spec x y); [lia|].
  destruct H as [H|H]; [congruence|]. simpl. specialize (IH H). lia.
Qed.

Lemma remove_first_incl (x : string) (t : list string) :
  incl (remove_first x t) t.
Proof.
  induction t as [|y t IH]; simpl; [apply incl_refl|].
  destruct (String.eqb x y); [apply incl_tl, incl_refl|].
  intros z [<-|Hz]; [now left | right; apply IH, Hz].
Qed.

Lemma filter_narrow (f : string -> bool) (w : string) (l : list string) :
  filter f (narrow w l) = filter (fun k => has_word w k && f k) l.
Proof.
  unfold narrow. induction l as [|k l IH]; simpl; [reflexivity|].
  destruct (has_word w k); simpl; [destruct (f k)|]; rewrite IH; reflexivity.
Qed.

(** Induction on the length of the title, the measure of [get_match]. *)
Lemma title_length_ind (P : list string -> Prop) :
  (forall title,
     (forall title', List.length title' < List.length title -> P title') ->
     P title) ->
  forall title, P title.
Proof.
  intros Hstep title.
  assert (H : forall n title', List.length title' < n -> P title').
  { induction n as [|n IH]; intros title' Hlt; [lia|].
    apply Hstep. intros t Ht. apply IH. lia. }
  apply (H (S (List.length title))). lia.
Qed.

Lemma get_match_selects (title : list string) :
  forall (candidates : list string) (c : string),
    get_match title candidates = Some c ->
    exists ws,
      ws <> [] /\ incl ws title
      /\ filter (has_words ws) candidates = [c].
Proof.
  induction title as [title IH] using title_length_ind.
  intros candidates c. destruct title as [|w l].
  - rewrite get_match_equation_1. discriminate.
  - rewrite get_match_equation_2.
    set (m := max_by_len_from w l).
    assert (Hm : In m (w :: l)) by apply max_by_len_from_In.
    assert (Hrec : forall cands,
      get_match (remove_first m (w :: l)) cands = Some c ->
      cands = narrow m candidates ->
      exists ws, ws <> [] /\ incl ws (w :: l)
                 /\ filter (has_words ws) candidates = [c]).
    { intros cands Hg ->.
      destruct (IH _ (remove_first_length m _ Hm) _ _ Hg)
        as (ws & _ & Hincl & Hf).
      exists (m :: ws). split; [discriminate|]. split.
      - intros x [<-|Hx]; [exact Hm|].
        apply (remove_first_incl m), Hincl, Hx.
      - rewrite filter_narrow in Hf. exact Hf. }
    destruct (narrow m candidates) as [|c0 [|c1 rest]] eqn:Hn.
    + intros Hg. apply (Hrec [] Hg eq_refl).
    + intros [= <-]. exists [m]. split; [discriminate|]. split.
      * intros x [<-|[]]. exact Hm.
      * rewrite <- Hn. unfold narrow. apply filter_ext. intros k.
        unfold has_words. simpl. apply andb_true_r.
    + intros Hg. apply (Hrec _ Hg eq_refl).
Qed.

(** X6. A candidate returned by [get_match] is a candidate that was
    passed in, and it is the only one of them whose segments hold every
    word of some non-empty selection of the words of the title. *)
Theorem get_match_unique_candidate (title candidates : list string)
    (c : string) :
  get_match title candidates = Some c ->
  In c candidates
  /\ exists ws,
       ws <> [] /\ incl ws title
       /\ has_words ws c = true
       /\ forall c', In c' candidates -> has_words ws c' = true -> c' = c.
Proof.
  intros Hg. destruct (get_match_selects _ _ _ Hg) as (ws & Hne & Hincl & Hf).
  assert (Hc : In c (filter (has_words ws) candidates))
    by (rewrite Hf; now left).
  apply filter_In in Hc. destruct Hc as [Hin Hws].
  split; [exact Hin|]. exists ws. repeat split; try assumption.
  intros c' Hin' Hws'.
  assert (Hc' : In c' (filter (has_words ws) candidates))
    by (apply filter_In; split; assumption).
  rewrite Hf in Hc'. destruct Hc' as [<-|[]]. reflexivity.
Qed.

Lemma get_match_unique_candidate_witness :
  get_match ["courage"] ["red_badge_of_courage_0"; "red_badge_1"]
    = Some "red_badge_of_courage_0"
  /\ In "red_badge_of_courage_0" ["red_badge_of_courage_0"; "red_badge_1"].
Proof.
  refine (conj eq_refl _).
  exact (proj1 (get_match_unique_candidate ["courage"]
                  ["red_badge_of_courage_0"; "red_badge_1"]
                  "red_badge_of_courage_0" eq_refl)).
Defined.

Lemma get_match_ambiguous_none_aux (title candidates : list string)
    (c1 c2 : string) :
  In c1 candidates -> In c2 candidates -> c1 <> c2 ->
  (forall w, In w title -> has_word w c1 = true /\ has_word w c2 = true) ->
  get_match title candidates = None.
Proof.
  revert candidates.
  induction title as [title IH] using title_length_ind.
  intros candidates H1 H2 Hne Hall. destruct title as [|w l].
  - apply get_match_equation_1.
  - rewrite get_match_equation_2.
    set (m := max_by_len_from w l).
    assert (Hm : In m (w :: l)) by apply max_by_len_from_In.
    assert (H1' : In c1 (narrow m candidates))
      by (apply filter_In; split; [exact H1 | apply (Hall m Hm)]).
    assert (H2' : In c2 (narrow m candidates))
      by (apply filter_In; split; [exact H2 | apply (Hall m Hm)]).
    assert (Hrec : get_match (remove_first m (w :: l)) (narrow m candidates)
                   = None).
    { apply (IH _ (remove_first_length m _ Hm)); try assumption.
      intros x Hx. apply Hall, (remove_first_incl m), Hx. }
    destruct (narrow m candidates) as [|c0 [|c1' rest]].
    + destruct H1'.
    + destruct H1' as [<-|[]], H2' as [<-|[]]. congruence.
    + exact Hrec.
Qed.

(** X7. [get_match] does not guess: when two different candidates both
    hold every word of the title, it returns [None]. *)
Theorem get_match_ambiguous_none (title candidates : list string)
    (c1 c2 : string) :
  In c1 candidates -> In c2 candidates -> c1 <> c2 ->
  (forall w, In w title -> has_word w c1 = true /\ has_word w c2 = true) ->
  get_match title candidates = None.
Proof. apply get_match_ambiguous_none_aux. Qed.

Lemma get_match_ambiguous_none_witness :
  let cands := ["red_badge_of_courage_0"; "red_badge_1"] in
  In "red_badge_of_courage_0" cands
  /\ In "red_badge_1" cands
  /\ "red_badge_of_courage_0" <> "red_badge_1"
  /\ get_match ["red"; "badge"] cands = None.
Proof.
  intros cands.
  assert (H1 : In "red_badge_of_courage_0" cands) by (now left).
  assert (H2 : In "red_badge_1" cands) by (right; now left).
  assert (H3 : "red_badge_of_courage_0" <> "red_badge_1") by discriminate.
  refine (conj H1 (conj H2 (conj H3 _))).
  apply (get_match_ambiguous_none ["red"; "badge"] cands _ _ H1 H2 H3).
  intros w [<-|[<-|[]]]; split; reflexivity.
Defined.

(** ** The loop body of [match_titles]: what is stored, and when *)

Lemma dict_get_In_keys {V} (k : string) (d : dict V) :
  In k (dict_keys d) -> exists v, dict_get k d = Some v.
Proof.
  intros Hin. destruct (dict_get k d) as [v|] eqn:Hget; [now exists v|].
  apply dict_get_none_iff in Hget. contradiction.
Qed.

Lemma dict_get_entry {V} (k : string) (v : V) (d : dict V) :
  dict_get k d = Some v -> In (k, v) d.
Proof.
  induction d as [|[k' v'] d IH]; simpl; [discriminate|].
  destruct (String.eqb_spec k k') as [->|Hne].
  - intros [= ->]. now left.
  - intros H. right. auto.
Qed.

Lemma max_by_len_In (l : list string) (w : string) :
  max_by_len l = Some w -> In w l.
Proof.
  destruct l as [|b t]; simpl; [discriminate|].
  intros [= <-]. apply max_by_len_from_In.
Qed.

Lemma find_match_some (recs : dict Record_) (title : string)
    (rec : Record_) :
  find_match recs title = Ret (Some rec) ->
  exists key ws,
    ws <> [] /\ incl ws (search_words title)
    /\ dict_get key recs = Some rec
    /\ filter (has_words ws) (dict_keys recs) = [key].
Proof.
  unfold find_match.
  destruct (max_by_len (search_words title)) as [cur|] eqn:Hmax;
    [|discriminate].
  pose proof (max_by_len_In _ _ Hmax) as Hcur.
  assert (Hlook : forall key,
    match dict_get key recs with
    | Some r => Ret (Some r)
    | None => Raise (KeyError key)
    end = Ret (Some rec) -> dict_get key recs = Some rec).
  { intros key. destruct (dict_get key recs); [|discriminate].
    now intros [= ->]. }
  destruct (narrow cur (dict_keys recs)) as [|c0 [|c1 rest]] eqn:Hn.
  - discriminate.
  - intros H. apply Hlook in H. exists c0, [cur].
    split; [discriminate|]. split; [intros x [<-|[]]; exact Hcur|].
    split; [exact H|]. rewrite <- Hn. unfold narrow. apply filter_ext.
    intros k. unfold has_words. simpl. apply andb_true_r.
  - destruct (get_match (remove_first cur (search_words title))
                        (c0 :: c1 :: rest)) as [m|] eqn:Hg; [|discriminate].
    intros H. apply Hlook in H.
    destruct (get_match_selects _ _ _ Hg) as (ws & _ & Hincl & Hf).
    exists m, (cur :: ws). split; [discriminate|]. split.
    + intros x [<-|Hx]; [exact Hcur|].
      apply (remove_first_incl cur), Hincl, Hx.
    + split; [exact H|]. rewrite <- Hn, filter_narrow in Hf. exact Hf.
Qed.

Lemma find_match_raise (recs : dict Record_) (title : string) (e : exn) :
  find_match recs title = Raise e ->
  e = ValueError /\ search_words title = [].
Proof.
  unfold find_match.
  destruct (search_words title) as [|b t] eqn:Hsw; simpl.
  - intros [= <-]. split; reflexivity.
  - set (cur := max_by_len_from b t).
    assert (Hlook : forall key,
      In key (dict_keys recs) ->
      match dict_get key recs with
      | Some r => Ret (Some r)
      | None => Raise (KeyError key)
      end <> Raise e).
    { intros key Hin. destruct (dict_get_In_keys key recs Hin) as [v ->].
      discriminate. }
    destruct (narrow cur (dict_keys recs)) as [|c0 [|c1 rest]] eqn:Hn.
    + discriminate.
    + intros H. exfalso. apply (Hlook c0); [|exact H].
      assert (Hin : In c0 (narrow cur (dict_keys recs)))
        by (rewrite Hn; now left).
      apply filter_In in Hin. tauto.
    + destruct (get_match _ (c0 :: c1 :: rest)) as [m|] eqn:Hg;
        [|discriminate].
      intros H. exfalso. apply (Hlook m); [|exact H].
      destruct (get_match_selects _ _ _ Hg) as (ws & _ & _ & Hf).
      assert (Hin : In m (filter (has_words ws) (c0 :: c1 :: rest)))
        by (rewrite Hf; now left).
      apply filter_In in Hin. destruct Hin as [Hin _].
      rewrite <- Hn in Hin. apply filter_In in Hin. tauto.
Qed.

(** X8. One iteration of the loop of [match_titles] raises exactly when
    the title has no significant word, and then it raises [ValueError]:
    looking up a candidate in [corpus.records] never fails. *)
Theorem match_title_raises_iff (matches : ref) (corpus : Corpus)
    (title : string) (w : World) (e : exn) :
  fst (match_title matches corpus title w) = Raise e
  <-> e = ValueError /\ search_words title = [].
Proof.
  rewrite match_title_find. split.
  - destruct (find_match (records corpus) title) as [[rec|]|e'] eqn:Hf;
      simpl; try discriminate.
    intros [= ->]. apply (find_match_raise _ _ _ Hf).
  - intros [-> Hsw]. unfold find_match. rewrite Hsw. reflexivity.
Qed.

(** X9. When an iteration of the loop of [match_titles] changes the
    mapping, it binds the title to the record of a key that is the only
    key of the index holding every word of a non-empty selection of the
    title's significant words; otherwise the state is left as it was. *)
Theorem match_title_binds_unique_key (matches : ref) (corpus : Corpus)
    (title : string) (w : World) :
  fst (match_title matches corpus title w) = Ret tt ->
  snd (match_title matches corpus title w) = w
  \/ exists key rec ws,
       ws <> [] /\ incl ws (search_words title)
       /\ dict_get key (records corpus) = Some rec
       /\ has_words ws key = true
       /\ (forall k, In k (dict_keys (records corpus)) ->
                     has_words ws k = true -> k = key)
       /\ snd (match_title matches corpus title w)
          = set_cell matches (dict_set title rec (cell matches w)) [] w.
Proof.
  rewrite match_title_find.
  destruct (find_match (records corpus) title) as [[rec|]|e] eqn:Hf;
    simpl; [|auto|discriminate].
  intros _. right.
  destruct (find_match_some _ _ _ Hf) as (key & ws & Hne & Hincl & Hget & Hfil).
  exists key, rec, ws. repeat split; try assumption.
  - assert (Hin : In key (filter (has_words ws) (dict_keys (records corpus))))
      by (rewrite Hfil; now left).
    apply filter_In in Hin. tauto.
  - intros k Hk Hws.
    assert (Hin : In k (filter (has_words ws) (dict_keys (records corpus))))
      by (apply filter_In; split; assumption).
    rewrite Hfil in Hin. destruct Hin as [<-|[]]. reflexivity.
Qed.

Lemma match_title_binds_unique_key_witness :
  fst (match_title 0 Sample.moby_corpus "moby dick" (mkWorld [[]] [] []))
    = Ret tt
  /\ snd (match_title 0 Sample.moby_corpus "moby dick" (mkWorld [[]] [] []))
     <> mkWorld [[]] [] [].
Proof.
  refine (conj eq_refl _).
  destruct (match_title_binds_unique_key 0 Sample.moby_corpus "moby dick"
              (mkWorld [[]] [] []) eq_refl) as [H|_];
    [discriminate H | discriminate].
Defined.

(** X10. No guess in [match_titles]: when two different keys of the index
    both hold every significant word of the title, the iteration stores
    nothing. *)
Theorem match_title_ambiguous_stores_nothing (matches : ref)
    (corpus : Corpus) (title : string) (w : World) (k1 k2 : string) :
  search_words title <> [] ->
  In k1 (dict_keys (records corpus)) ->
  In k2 (dict_keys (records corpus)) ->
  k1 <> k2 ->
  (forall x, In x (search_words title) ->
             has_word x k1 = true /\ has_word x k2 = true) ->
  match_title matches corpus title w = (Ret tt, w).
Proof.
  intros Hsw H1 H2 Hne Hall. rewrite match_title_find.
  unfold find_match.
  destruct (max_by_len (search_words title)) as [cur|] eqn:Hmax.
  2:{ destruct (search_words title); [congruence | discriminate]. }
  pose proof (max_by_len_In _ _ Hmax) as Hcur.
  assert (H1' : In k1 (narrow cur (dict_keys (records corpus))))
    by (apply filter_In; split; [exact H1 | apply (Hall cur Hcur)]).
  assert (H2' : In k2 (narrow cur (dict_keys (records corpus))))
    by (apply filter_In; split; [exact H2 | apply (Hall cur Hcur)]).
  assert (Hg : get_match (remove_first cur (search_words title))
                         (narrow cur (dict_keys (records corpus))) = None).
  { apply (get_match_ambiguous_none_aux _ _ k1 k2); try assumption.
    intros x Hx. apply Hall, (remove_first_incl cur), Hx. }
  destruct (narrow cur (dict_keys (records corpus))) as [|c0 [|c1 rest]].
  - destruct H1'.
  - destruct H1' as [<-|[]], H2' as [<-|[]]. congruence.
  - rewrite Hg. reflexivity.
Qed.

Lemma match_title_ambiguous_stores_nothing_witness :
  let keys := dict_keys (records Sample.crane_corpus) in
  search_words "red badge" <> []
  /\ In "red_badge_of_courage_0" keys
  /\ In "red_badge_1" keys
  /\ "red_badge_of_courage_0" <> "red_badge_1"
  /\ match_title 0 Sample.crane_corpus "red badge" (mkWorld [[]] [] [])
     = (Ret tt, mkWorld [[]] [] []).
Proof.
  intros keys.
  assert (H0 : search_words "red badge" <> []) by discriminate.
  assert (H1 : In "red_badge_of_courage_0" keys) by (now left).
  assert (H2 : In "red_badge_1" keys) by (right; now left).
  assert (H3 : "red_badge_of_courage_0" <> "red_badge_1") by discriminate.
  refine (conj H0 (conj H1 (conj H2 (conj H3 _)))).
  apply (match_title_ambiguous_stores_nothing 0 Sample.crane_corpus
           "red badge" _ _ _ H0 H1 H2 H3).
  intros x [<-|[<-|[]]]; split; reflexivity.
Defined.

(** ** [match_titles]: when it returns and what it returns *)

Lemma dict_keys_set {V} (k : string) (v : V) (d : dict V) :
  dict_keys (dict_set k v d)
  = if dict_mem k d then dict_keys d else dict_keys d ++ [k].
Proof.
  unfold dict_mem. induction d as [|[k' v'] d IH]; simpl; [reflexivity|].
  destruct (String.eqb_spec k k') as [->|Hne]; simpl; [reflexivity|].
  rewrite IH. destruct (dict_get k d); reflexivity.
Qed.

Lemma dict_set_NoDup {V} (k : string) (v : V) (d : dict V) :
  NoDup (dict_keys d) -> NoDup (dict_keys (dict_set k v d)).
Proof.
  intros Hnd. rewrite dict_keys_set.
  destruct (dict_mem k d) eqn:Hm; [exact Hnd|].
  apply dict_mem_false_iff in Hm.
  apply NoDup_app; [exact Hnd | repeat constructor; intros [] |].
  intros a Ha [<-|[]]. contradiction.
Qed.

Lemma dict_set_In {V} (k : string) (v : V) (d : dict V) (e : string * V) :
  In e (dict_set k v d) -> e = (k, v) \/ In e d.
Proof.
  induction d as [|[k' v'] d IH]; simpl.
  - intros [<-|[]]. now left.
  - destruct (String.eqb k k'); simpl.
    + intros [<-|H]; auto.
    + intros [<-|H]; auto. destruct (IH H); auto.
Qed.

Lemma collect_run (recs : dict Record_) (all : list string)
    (titles : list string) :
  forall d : dict Record_,
    incl titles all ->
    NoDup (dict_keys d) ->
    Forall (accepted_entry recs all) d ->
    NoDup (dict_keys (snd (collect recs titles d)))
    /\ Forall (accepted_entry recs all) (snd (collect recs titles d))
    /\ match fst (collect recs titles d) with
       | Ret _ => Forall (fun t => search_words t <> []) titles
       | Raise e =>
           e = ValueError /\ Exists (fun t => search_words t = []) titles
       end.
Proof.
  induction titles as [|t titles IH]; intros d Hincl Hnd Hall; simpl.
  - repeat split; auto.
  - assert (Hincl' : incl titles all)
      by (intros x Hx; apply Hincl; now right).
    destruct (find_match recs t) as [[rec|]|e] eqn:Hf.
    + destruct (find_match_some _ _ _ Hf) as (key & ws & Hne & Hws & Hget & _).
      assert (Hsw : search_words t <> []).
      { destruct ws as [|x ws]; [congruence|].
        intros Heq. rewrite Heq in Hws. apply (Hws x). now left. }
      destruct (IH (dict_set t rec d) Hincl' (dict_set_NoDup t rec d Hnd))
        as (H1 & H2 & H3).
      { apply Forall_forall. intros e He.
        destruct (dict_set_In _ _ _ _ He) as [->|Hin].
        - repeat split; [apply Hincl; now left | exact Hsw |].
          exists key. apply dict_get_entry, Hget.
        - rewrite Forall_forall in Hall. apply Hall, Hin. }
      repeat split; try assumption.
      destruct (fst (collect recs titles (dict_set t rec d))).
      * constructor; assumption.
      * destruct H3 as [-> H3]. split; [reflexivity|].
        apply Exists_cons_tl, H3.
    + assert (Hsw : search_words t <> []).
      { intros Heq. unfold find_match in Hf. rewrite Heq in Hf.
        discriminate. }
      destruct (IH d Hincl' Hnd Hall) as (H1 & H2 & H3).
      repeat split; try assumption.
      destruct (fst (collect recs titles d)).
      * constructor; assumption.
      * destruct H3 as [-> H3]. split; [reflexivity|].
        apply Exists_cons_tl, H3.
    + simpl. destruct (find_match_raise _ _ _ Hf) as [-> Hsw].
      repeat split; try assumption. apply Exists_cons_hd, Hsw.
Qed.

Lemma sift_run (rest : dict Record_) :
  forall (done : dict Record_) (mt : option string),
    NoDup (dict_keys (done ++ rest)) ->
    Forall (fun e => split (fst e) <> []) rest ->
    match sift (dict_keys rest) mt (done ++ rest) with
    | (Ret _, d', logged) =>
        d' = done ++ filter kept rest
        /\ map log_match logged = map fst (filter rejected rest)
        /\ map log_percent logged = map overlap (filter rejected rest)
        /\ (Forall (fun e => split (r_title (snd e)) <> []) rest ->
            logged = map log_of (filter rejected rest))
    | (Raise e, _, _) =>
        e = UnboundLocalError "metadata_title"
        /\ Exists (fun e => split (r_title (snd e)) = []) rest
    end.
Proof.
  induction rest as [|[k v] rest IH]; intros done mt Hnd Hw.
  - simpl. rewrite app_nil_r. repeat split.
  - inversion Hw as [|? ? Hk Hrest]; subst. simpl in Hk.
    assert (Hnin : ~ In k (dict_keys done)).
    { rewrite dict_keys_app in Hnd. simpl in Hnd.
      apply NoDup_remove_2 in Hnd. rewrite in_app_iff in Hnd. tauto. }
    assert (Hnd' : NoDup (dict_keys (done ++ rest))).
    { rewrite dict_keys_app in *. simpl in Hnd.
      apply NoDup_remove_1 in Hnd. exact Hnd. }
    change (dict_keys ((k, v) :: rest)) with (k :: dict_keys rest).
    cbn [sift]. rewrite dict_get_app_cons by exact Hnin.
    destruct (split k) as [|k0 ks] eqn:Hsk; [congruence|].
    cbn [List.length Nat.eqb].
    cbn [filter]. unfold kept at 1.
    destruct (rejected (k, v)) eqn:Hrej; cbn [negb].
    + unfold title_after.
      destruct (split (r_title v)) as [|t0 ts] eqn:Hsv.
      * destruct mt as [t|].
        -- rewrite dict_del_app_cons by exact Hnin.
           specialize (IH done (Some t) Hnd' Hrest).
           destruct (sift (dict_keys rest) (Some t) (done ++ rest))
             as [[[[]|e] d'] logged].
           ++ destruct IH as (-> & Hm & Hp & Hl).
              cbn [map log_match log_percent fst].
              split; [reflexivity|]. split; [f_equal; exact Hm|].
              split; [f_equal; exact Hp|].
              intros Hall. inversion Hall as [|? ? Hv _]; subst.
              simpl in Hv. congruence.
           ++ destruct IH as [-> Hex]. split; [reflexivity|].
              apply Exists_cons_tl, Hex.
        -- split; [reflexivity|]. apply Exists_cons_hd. exact Hsv.
      * rewrite dict_del_app_cons by exact Hnin.
        specialize (IH done (Some (r_title v)) Hnd' Hrest).
        destruct (sift (dict_keys rest) (Some (r_title v)) (done ++ rest))
          as [[[[]|e] d'] logged].
        -- destruct IH as (-> & Hm & Hp & Hl).
           cbn [map log_match log_percent fst].
           split; [reflexivity|]. split; [f_equal; exact Hm|].
           split; [f_equal; exact Hp|].
           intros Hall. inversion Hall as [|? ? _ Hall']; subst.
           rewrite (Hl Hall'). reflexivity.
        -- destruct IH as [-> Hex]. split; [reflexivity|].
           apply Exists_cons_tl, Hex.
    + assert (Hnd2 : NoDup (dict_keys ((done ++ [(k, v)]) ++ rest)))
        by (rewrite <- app_assoc; exact Hnd).
      specialize (IH (done ++ [(k, v)]) (title_after mt v) Hnd2 Hrest).
      rewrite <- app_assoc in IH. cbn [app] in IH.
      destruct (sift (dict_keys rest) (title_after mt v)
                     (done ++ (k, v) :: rest)) as [[[[]|e] d'] logged].
      * destruct IH as (-> & Hm & Hp & Hl). rewrite <- app_assoc.
        split; [reflexivity|]. split; [exact Hm|]. split; [exact Hp|].
        intros Hall. inversion Hall; subst. auto.
      * destruct IH as [-> Hex]. split; [reflexivity|].
        apply Exists_cons_tl, Hex.
Qed.

Lemma search_words_split (title : string) :
  search_words title <> [] -> split title <> [].
Proof.
  unfold search_words. intros H Heq. rewrite Heq in H. apply H. reflexivity.
Qed.

Lemma kept_overlap (e : string * Record_) :
  kept e = true <-> (1 # 2 < overlap e)%Q.
Proof.
  unfold kept, rejected, kMatchThreshold.
  destruct (Qle_bool (overlap e) (1 # 2)) eqn:H; simpl.
  - apply Qle_bool_iff in H. split; [discriminate|].
    intros Hlt. exfalso. apply (Qlt_not_le _ _ Hlt H).
  - split; [|reflexivity]. intros _. apply Qnot_le_lt.
    intros Hle. apply Qle_bool_iff in Hle. congruence.
Qed.

(** The mapping accepted by the loop of [match_titles], then what the
    filter makes of it. *)
Lemma matcher_collect (recs : dict Record_) (titles : list string) :
  let accepted := snd (collect recs titles []) in
  NoDup (dict_keys accepted)
  /\ Forall (accepted_entry recs titles) accepted
  /\ match matcher recs titles with
     | (Ret _, d, logged) =>
         fst (collect recs titles []) = Ret tt
         /\ d = filter kept accepted
         /\ (Forall (fun e => split (r_title (snd e)) <> []) accepted ->
             logged = map log_of (filter rejected accepted))
     | (Raise e, _, _) =>
         (e = ValueError /\ Exists (fun t => search_words t = []) titles)
         \/ (e = UnboundLocalError "metadata_title"
             /\ Exists (fun e => split (r_title (snd e)) = []) accepted)
     end.
Proof.
  destruct (collect_run recs titles titles [] (incl_refl _)
              (NoDup_nil _) (Forall_nil _)) as (Hnd & Hacc & Hout).
  unfold matcher.
  destruct (collect recs titles []) as [[[]|e] d]; cbn [fst snd] in *.
  - split; [exact Hnd|]. split; [exact Hacc|].
    assert (Hkw : Forall (fun e => split (fst e) <> []) d).
    { eapply Forall_impl; [|exact Hacc].
      intros e (_ & Hsw & _). apply search_words_split, Hsw. }
    pose proof (sift_run d [] None Hnd Hkw) as Hs. cbn [app] in Hs.
    destruct (sift (dict_keys d) None d) as [[[[]|e] d'] logged].
    + destruct Hs as (-> & _ & _ & Hl). repeat split; assumption.
    + right. exact Hs.
  - split; [exact Hnd|]. split; [exact Hacc|]. left. exact Hout.
Qed.

Lemma matcher_run (recs : dict Record_) (titles : list string) :
  exists accepted,
    NoDup (dict_keys accepted)
    /\ Forall (accepted_entry recs titles) accepted
    /\ match matcher recs titles with
       | (Ret _, d, logged) =>
           Forall (fun t => search_words t <> []) titles
           /\ d = filter kept accepted
           /\ map log_match logged = map fst (filter rejected accepted)
           /\ map log_percent logged
              = map overlap (filter rejected accepted)
           /\ (Forall (fun e => split (r_title (snd e)) <> []) accepted ->
               logged = map log_of (filter rejected accepted))
       | (Raise e, _, _) =>
           (e = ValueError /\ Exists (fun t => search_words t = []) titles)
           \/ (e = UnboundLocalError "metadata_title"
               /\ Exists (fun e => split (r_title (snd e)) = []) accepted)
       end.
Proof.
  destruct (collect_run recs titles titles [] (incl_refl _)
              (NoDup_nil _) (Forall_nil _)) as (Hnd & Hacc & Hout).
  unfold matcher.
  destruct (collect recs titles []) as [[[]|e] d]; cbn [fst snd] in *.
  - exists d. split; [exact Hnd|]. split; [exact Hacc|].
    assert (Hkw : Forall (fun e => split (fst e) <> []) d).
    { eapply Forall_impl; [|exact Hacc].
      intros e (_ & Hsw & _). apply search_words_split, Hsw. }
    pose proof (sift_run d [] None Hnd Hkw) as Hs. cbn [app] in Hs.
    destruct (sift (dict_keys d) None d) as [[[[]|e] d'] logged].
    + destruct Hs as (-> & Hm & Hp & Hl). repeat split; assumption.
    + right. exact Hs.
  - exists d. split; [exact Hnd|]. split; [exact Hacc|]. left. exact Hout.
Qed.

Lemma accepted_titles_worded (recs : dict Record_) (titles : list string)
    (accepted : dict Record_) :
  Forall (fun e => split (r_title (snd e)) <> []) recs ->
  Forall (accepted_entry recs titles) accepted ->
  Forall (fun e => split (r_title (snd e)) <> []) accepted.
Proof.
  intros Hrecs Hacc. eapply Forall_impl; [|exact Hacc].
  intros e (_ & _ & key & Hin).
  rewrite Forall_forall in Hrecs. apply (Hrecs _ Hin).
Qed.

(** X11. When every title has a significant word and the title of every
    record of the index has a word, the loop of [match_titles] over the
    titles returns, and so does [match_titles], with the dict it
    allocated. Of the entries that the loop has stored in that dict, the
    dict holds at the end, in their order, those whose overlap exceeds one
    half; for each of the others the log has gained one row, in their
    order, with the query title, the title of the entry's own record and
    its overlap. *)
Theorem match_titles_returns (titles : list string) (corpus : Corpus)
    (w : World) :
  Forall (fun t => search_words t <> []) titles ->
  Forall (fun e => split (r_title (snd e)) <> []) (records corpus) ->
  let r := List.length (heap w) in
  let loop := match_loop r corpus titles (snd (alloc w)) in
  let accepted := cell r (snd loop) in
  let w' := snd (match_titles titles corpus w) in
  fst loop = Ret tt
  /\ fst (match_titles titles corpus w) = Ret r
  /\ heap w' = heap w ++ [filter kept accepted]
  /\ bad_match_file w'
     = bad_match_file w ++ map log_of (filter rejected accepted).
Proof.
  intros Htitles Hrecs r loop accepted w'.
  assert (Hr : r < List.length (heap (snd (alloc w))))
    by (unfold r, alloc; simpl; rewrite length_app; simpl; lia).
  assert (Hcell : cell r (snd (alloc w)) = [])
    by (unfold cell, r, alloc; simpl; apply nth_last_cell).
  assert (Hacc : accepted = snd (collect (records corpus) titles [])).
  { unfold accepted, loop. rewrite (match_loop_run r corpus titles _ Hr).
    cbn [snd]. rewrite cell_set_cell by exact Hr. rewrite Hcell.
    reflexivity. }
  assert (Hloop : fst loop = fst (collect (records corpus) titles [])).
  { unfold loop. rewrite (match_loop_run r corpus titles _ Hr), Hcell.
    reflexivity. }
  destruct (matcher_collect (records corpus) titles) as (Hnd & Hentries & Hm).
  rewrite <- Hacc in Hentries, Hm.
  pose proof (accepted_titles_worded _ _ _ Hrecs Hentries) as Hworded.
  unfold w'. rewrite match_titles_run. fold r.
  destruct (matcher (records corpus) titles) as [[[[]|e] d] logged];
    cbn [fst snd heap bad_match_file].
  - destruct Hm as (Hret & -> & Hl). rewrite (Hl Hworded), Hloop.
    repeat split. exact Hret.
  - exfalso. destruct Hm as [[_ Hex]|[_ Hex]].
    + apply Exists_exists in Hex. destruct Hex as (t & Hin & Ht).
      rewrite Forall_forall in Htitles. apply (Htitles t Hin Ht).
    + apply Exists_exists in Hex. destruct Hex as (x & Hin & Hx).
      rewrite Forall_forall in Hworded. apply (Hworded x Hin Hx).
Qed.

Lemma match_titles_returns_witness :
  let titles := ["great gatsby novel text"; "gatsby"] in
  let c := mkCorpus "g.csv" [("great_gatsby_0", Sample.gatsby_record)]
                    1 ["title"] 1 in
  Forall (fun t => search_words t <> []) titles
  /\ Forall (fun e => split (r_title (snd e)) <> []) (records c)
  /\ fst (match_titles titles c world0) = Ret 0
  /\ heap (snd (match_titles titles c world0))
     = [[("gatsby", Sample.gatsby_record)]]
  /\ bad_match_file (snd (match_titles titles c world0))
     = [mkLogRow "great gatsby novel text" "The Great Gatsby" (2 # 4)].
Proof.
  intros titles c.
  assert (H1 : Forall (fun t => search_words t <> []) titles)
    by (repeat constructor; discriminate).
  assert (H2 : Forall (fun e => split (r_title (snd e)) <> []) (records c))
    by (repeat constructor; discriminate).
  refine (conj H1 (conj H2 _)).
  destruct (match_titles_returns titles c world0 H1 H2)
    as (_ & Hret & Hheap & Hlog).
  refine (conj Hret (conj _ _)).
  - rewrite Hheap. reflexivity.
  - rewrite Hlog. reflexivity.
Defined.

(** X12. [match_titles] fails in two ways only: with [ValueError], and
    then some title has no significant word; or with [UnboundLocalError]
    on [metadata_title], and then some record of the index has a title
    without a word. It raises neither [KeyError] nor
    [ZeroDivisionError]. *)
Theorem match_titles_failures (titles : list string) (corpus : Corpus)
    (w : World) (e : exn) :
  fst (match_titles titles corpus w) = Raise e ->
  (e = ValueError /\ Exists (fun t => search_words t = []) titles)
  \/ (e = UnboundLocalError "metadata_title"
      /\ Exists (fun x => split (r_title (snd x)) = []) (records corpus)).
Proof.
  rewrite match_titles_run. cbn [fst].
  destruct (matcher_run (records corpus) titles) as (accepted & _ & Hacc & Hm).
  destruct (matcher (records corpus) titles) as [[[[]|e'] d] logged];
    cbn [fst]; [discriminate|].
  intros [= ->]. destruct Hm as [Hv|[He Hex]]; [left; exact Hv|].
  right. split; [exact He|].
  apply Exists_exists in Hex. destruct Hex as (x & Hin & Hx).
  rewrite Forall_forall in Hacc. destruct (Hacc x Hin) as (_ & _ & key & Hk).
  apply Exists_exists. exists (key, snd x). split; assumption.
Qed.

Lemma match_titles_failures_witness :
  fst (match_titles ["0"] Sample.fitzgerald_corpus world0)
    = Raise (UnboundLocalError "metadata_title")
  /\ Exists (fun x => split (r_title (snd x)) = [])
            (records Sample.fitzgerald_corpus).
Proof.
  refine (conj eq_refl _).
  destruct (match_titles_failures ["0"] Sample.fitzgerald_corpus world0 _
              eq_refl) as [[H _]|[_ H]]; [discriminate H | exact H].
Defined.

Lemma dict_filter_NoDup {V} (f : string * V -> bool) (d : dict V) :
  NoDup (dict_keys d) -> NoDup (dict_keys (filter f d)).
Proof.
  induction d as [|e d IH]; simpl; intros Hnd; [constructor|].
  inversion Hnd as [|? ? Hnin Hnd']; subst.
  destruct (f e); simpl; [|auto].
  constructor; [|auto]. intros Hin. apply Hnin.
  unfold dict_keys in *. apply in_map_iff in Hin.
  destruct Hin as (x & Hx & Hin). apply filter_In in Hin.
  apply in_map_iff. exists x. tauto.
Qed.

(** X13. Whenever [match_titles] returns, the dict it returns binds each
    title at most once, binds only titles of the list given, only to
    records of the index, and only with an overlap above one half. *)
Theorem match_titles_result_sound (titles : list string) (corpus : Corpus)
    (w : World) (r : ref) :
  fst (match_titles titles corpus w) = Ret r ->
  let d := cell r (snd (match_titles titles corpus w)) in
  r = List.length (heap w)
  /\ NoDup (dict_keys d)
  /\ forall t rec, In (t, rec) d ->
       In t titles
       /\ (exists key, In (key, rec) (records corpus))
       /\ (1 # 2 < overlap (t, rec))%Q.
Proof.
  rewrite match_titles_run. cbn [fst snd].
  destruct (matcher_run (records corpus) titles) as (accepted & Hnd & Hacc & Hm).
  destruct (matcher (records corpus) titles) as [[[[]|e] d] logged];
    cbn [fst snd]; [|discriminate].
  intros [= <-]. unfold cell. cbn [heap]. rewrite nth_last_cell.
  destruct Hm as (_ & -> & _). split; [reflexivity|]. split.
  - apply dict_filter_NoDup, Hnd.
  - intros t rec Hin. apply filter_In in Hin. destruct Hin as [Hin Hk].
    rewrite Forall_forall in Hacc. destruct (Hacc _ Hin) as (Ht & _ & Hkey).
    repeat split; [exact Ht | exact Hkey | apply kept_overlap, Hk].
Qed.

Lemma match_titles_result_sound_witness :
  fst (match_titles ["moby dick"; "0"] Sample.moby_corpus world0) = Ret 0
  /\ NoDup (dict_keys
             (cell 0 (snd (match_titles ["moby dick"; "0"]
                             Sample.moby_corpus world0)))).
Proof.
  refine (conj eq_refl _).
  exact (proj1 (proj2 (match_titles_result_sound ["moby dick"; "0"]
                         Sample.moby_corpus world0 0 eq_refl))).
Defined.

(** ** [filter_matches] called on a mapping of its own *)

Lemma filter_matches_run_witness :
  let w := mkWorld [[("moby dick", Sample.moby_record)]] [] [] in
  0 < List.length (heap w)
  /\ NoDup (dict_keys (cell 0 w))
  /\ Forall worded (cell 0 w)
  /\ filter_matches 0 w
     = (Ret PyNone,
        set_cell 0 (filter kept (cell 0 w))
                 (map log_of (filter rejected (cell 0 w))) w).
Proof.
  intros w.
  assert (H1 : 0 < List.length (heap w)) by (simpl; lia).
  assert (H2 : NoDup (dict_keys (cell 0 w)))
    by (repeat constructor; intros []).
  assert (H3 : Forall worded (cell 0 w))
    by (repeat constructor; discriminate).
  refine (conj H1 (conj H2 (conj H3 _))).
  exact (filter_matches_run 0 w H1 H2 H3).
Defined.


Lemma sift_blank_key (k : string) (v : Record_) (rest pre : dict Record_) :
  forall (done : dict Record_) (mt : option string),
    NoDup (dict_keys (done ++ pre ++ (k, v) :: rest)) ->
    Forall worded pre ->
    split k = [] ->
    sift (dict_keys (pre ++ (k, v) :: rest)) mt
         (done ++ pre ++ (k, v) :: rest)
    = (Raise ZeroDivisionError,
       done ++ filter kept pre ++ (k, v) :: rest,
       map log_of (filter rejected pre)).
Proof.
  induction pre as [|[k0 v0] pre IH]; intros done mt Hnd Hw Hk.
  - cbn [app]. change (dict_keys ((k, v) :: rest)) with (k :: dict_keys rest).
    cbn [sift]. rewrite dict_get_app_cons, Hk; [reflexivity|].
    cbn [app] in Hnd. rewrite dict_keys_app in Hnd. simpl in Hnd.
    apply NoDup_remove_2 in Hnd. rewrite in_app_iff in Hnd. tauto.
  - inversion Hw as [|? ? Hkv Hpre]; subst.
    cbn [app] in *.
    assert (Hnin : ~ In k0 (dict_keys done)).
    { rewrite dict_keys_app in Hnd. simpl in Hnd.
      apply NoDup_remove_2 in Hnd. rewrite in_app_iff in Hnd. tauto. }
    assert (Hnd' : NoDup (dict_keys (done ++ pre ++ (k, v) :: rest))).
    { rewrite dict_keys_app in *. simpl in Hnd.
      apply NoDup_remove_1 in Hnd. exact Hnd. }
    destruct (worded_run k0 v0 mt Hkv) as [Hlen Hta].
    change (dict_keys ((k0, v0) :: pre ++ (k, v) :: rest))
      with (k0 :: dict_keys (pre ++ (k, v) :: rest)).
    cbn [sift]. rewrite dict_get_app_cons, Hlen, Hta by exact Hnin.
    cbn [filter]. unfold kept at 1.
    destruct (rejected (k0, v0)) eqn:Hrej; cbn [negb map].
    + rewrite dict_del_app_cons by exact Hnin.
      rewrite (IH done _ Hnd' Hpre Hk). reflexivity.
    + replace (done ++ (k0, v0) :: pre ++ (k, v) :: rest)
        with ((done ++ [(k0, v0)]) ++ pre ++ (k, v) :: rest)
        by (rewrite <- app_assoc; reflexivity).
      rewrite (IH (done ++ [(k0, v0)])); [| |exact Hpre | exact Hk].
      * rewrite <- app_assoc. reflexivity.
      * rewrite <- app_assoc. exact Hnd.
Qed.

(** X14. Called on a mapping that has a key without a word (an empty or
    blank query title), [filter_matches] raises [ZeroDivisionError] when
    it reaches that key: the entries before it have been filtered and
    logged, that entry and the entries after it are left in the dict. *)
Theorem filter_matches_blank_key (r : ref) (w : World) (k : string)
    (v : Record_) (pre rest : dict Record_) :
  r < List.length (heap w) ->
  cell r w = pre ++ (k, v) :: rest ->
  NoDup (dict_keys (cell r w)) ->
  Forall worded pre ->
  split k = [] ->
  filter_matches r w
  = (Raise ZeroDivisionError,
     set_cell r (filter kept pre ++ (k, v) :: rest)
              (map log_of (filter rejected pre)) w).
Proof.
  intros Hr Hcell Hnd Hw Hk. rewrite (filter_matches_sift r w Hr), Hcell.
  rewrite Hcell in Hnd.
  pose proof (sift_blank_key k v rest pre [] None Hnd Hw Hk) as Hs.
  cbn [app] in Hs. rewrite Hs. reflexivity.
Qed.

Lemma filter_matches_blank_key_witness :
  let w := mkWorld [[("moby dick", Sample.moby_record);
                     ("  ", Sample.moby_record)]] [] [] in
  0 < List.length (heap w)
  /\ cell 0 w = [("moby dick", Sample.moby_record)]
                ++ ("  ", Sample.moby_record) :: []
  /\ NoDup (dict_keys (cell 0 w))
  /\ Forall worded [("moby dick", Sample.moby_record)]
  /\ split "  " = []
  /\ filter_matches 0 w = (Raise ZeroDivisionError, w).
Proof.
  intros w.
  assert (H1 : 0 < List.length (heap w)) by (simpl; lia).
  assert (H2 : cell 0 w = [("moby dick", Sample.moby_record)]
                          ++ ("  ", Sample.moby_record) :: [])
    by reflexivity.
  assert (H3 : NoDup (dict_keys (cell 0 w))).
  { repeat constructor; [intros [H|[]]; discriminate H | intros []]. }
  assert (H4 : Forall worded [("moby dick", Sample.moby_record)])
    by (repeat constructor; discriminate).
  assert (H5 : split "  " = []) by reflexivity.
  refine (conj H1 (conj H2 (conj H3 (conj H4 (conj H5 _))))).
  rewrite (filter_matches_blank_key 0 w "  " Sample.moby_record
             [("moby dick", Sample.moby_record)] [] H1 H2 H3 H4 H5).
  reflexivity.
Defined.

(** ** The loop of [main]: which files it reads and what it writes *)

(** X15. Directory entries whose name ends neither in [.csv] nor in
    [.tsv] play no part in a run: the loop does the same with and
    without them. *)
Theorem main_loop_skips_other_files (titles : list string)
    (files : list table_file) (w : World) :
  main_loop titles files w = main_loop titles (filter is_table files) w.
Proof.
  revert w. induction files as [|f files IH]; intros w; [reflexivity|].
  cbn [filter main_loop]. destruct (is_table f) eqn:Ht.
  - cbn [main_loop]. unfold bind.
    destruct (process_file titles f w) as [[[]|e] w1];
      [apply IH | reflexivity].
  - unfold bind, process_file. rewrite Ht. cbn. apply IH.
Qed.

Lemma substring_0_app (a b : string) :
  substring 0 (String.length a) (a ++ b) = a.
Proof.
  induction a as [|c a IH]; simpl; [destruct b; reflexivity|].
  rewrite IH. reflexivity.
Qed.

Lemma substring_app_tail (a b : string) :
  substring (String.length a) (String.length b) (a ++ b) = b.
Proof.
  induction a as [|c a IH]; simpl; [|exact IH].
  induction b as [|c b IHb]; simpl; [reflexivity|].
  rewrite IHb. reflexivity.
Qed.

Lemma string_length_app (a b : string) :
  String.length (a ++ b) = String.length a + String.length b.
Proof. induction a as [|c a IH]; simpl; [|rewrite IH]; reflexivity. Qed.

Lemma substring_full (s : string) : substring 0 (String.length s) s = s.
Proof.
  induction s as [|c s IH]; simpl; [|rewrite IH]; reflexivity.
Qed.

Lemma substring_split (m : nat) (s : string) :
  m <= String.length s ->
  s = (substring 0 m s ++ substring m (String.length s - m) s)%string.
Proof.
  revert m. induction s as [|c s IH]; intros [|m] Hm; simpl in *;
    try reflexivity; try lia.
  - rewrite substring_full. reflexivity.
  - f_equal. apply IH. lia.
Qed.

Lemma endswith_iff (s suffix : string) :
  endswith s suffix = true <-> exists stem, s = (stem ++ suffix)%string.
Proof.
  unfold endswith. rewrite andb_true_iff, Nat.leb_le, String.eqb_eq. split.
  - intros [Hle Heq].
    exists (substring 0 (String.length s - String.length suffix) s).
    rewrite <- Heq at 2.
    rewrite (substring_split (String.length s - String.length suffix) s)
      at 1 by lia.
    do 2 f_equal. lia.
  - intros [stem ->]. rewrite string_length_app. split; [lia|].
    replace (String.length stem + String.length suffix
             - String.length suffix) with (String.length stem) by lia.
    apply substring_app_tail.
Qed.

(** X16. A table [<stem>.csv] or [<stem>.tsv] gets its matches written to
    [<stem>_matches.csv]: two tables of the same directory that differ
    only in the extension are written to the same file. *)
Theorem outfile_name_of_table (f : table_file) :
  is_table f = true ->
  exists stem,
    (name f = (stem ++ ".csv")%string \/ name f = (stem ++ ".tsv")%string)
    /\ outfile_name (name f) = (stem ++ "_matches.csv")%string.
Proof.
  unfold is_table. rewrite orb_true_iff, !endswith_iff.
  assert (Hout : forall stem ext,
    String.length ext = 4 ->
    outfile_name (stem ++ ext) = (stem ++ "_matches.csv")%string).
  { intros stem ext Hext. unfold outfile_name.
    rewrite string_length_app, Hext.
    replace (String.length stem + 4 - 4) with (String.length stem) by lia.
    rewrite substring_0_app. reflexivity. }
  intros [[stem H]|[stem H]]; exists stem; rewrite H;
    (split; [auto | apply Hout; reflexivity]).
Qed.

Lemma outfile_name_of_table_witness :
  is_table Sample.melville_csv = true
  /\ exists stem,
       (name Sample.melville_csv = (stem ++ ".csv")%string
        \/ name Sample.melville_csv = (stem ++ ".tsv")%string)
       /\ outfile_name (name Sample.melville_csv)
          = (stem ++ "_matches.csv")%string.
Proof.
  refine (conj eq_refl _).
  exact (outfile_name_of_table Sample.melville_csv eq_refl).
Defined.

Lemma process_file_table (titles : list string) (f : table_file)
    (w : World) :
  is_table f = true ->
  process_file titles f w
  = match read_metatable (fieldnames f) (rows f) (Corpus_init (path f)) with
    | (Raise e, _) => (Raise e, w)
    | (Ret _, c) =>
        match match_titles titles c w with
        | (Raise e, w1) => (Raise e, w1)
        | (Ret r, w1) =>
            (Ret tt,
             mkWorld (heap w1)
               (if String.eqb (outfile_name (name f)) kBadMatchFile then []
                else bad_match_file w1)
               (dict_set (outfile_name (name f))
                  (("match_title" :: field_names c)
                   :: map (fun tr => fst tr :: map snd (r_metadata (snd tr)))
                          (cell r w1))
                  (out_files w1)))
        end
    end.
Proof.
  intros Ht. unfold process_file. rewrite Ht. cbn [negb].
  unfold bind at 1, on_corpus.
  destruct (read_metatable (fieldnames f) (rows f) (Corpus_init (path f)))
    as [[[]|e] c]; [|reflexivity].
  cbn [snd]. unfold bind at 1.
  destruct (match_titles titles c w) as [[r|e] w1]; reflexivity.
Qed.






Lemma dict_get_set_same {V} (k : string) (v : V) (d : dict V) :
  dict_get k (dict_set k v d) = Some v.
Proof.
  induction d as [|[k' v'] d IH]; simpl.
  - rewrite String.eqb_refl. reflexivity.
  - destruct (String.eqb_spec k k') as [->|Hne]; simpl.
    + rewrite String.eqb_refl. reflexivity.
    + destruct (String.eqb_spec k k'); [congruence | exact IH].
Qed.

Lemma read_row_fields (title_field : string) (r : row) (count : nat)
    (c : Corpus) :
  field_names (snd (read_row title_field r count c)) = field_names c.
Proof.
  unfold read_row, bind, getitem, Record_init.
  destruct (dict_get title_field r) as [raw_title|] eqn:Hget;
    [|reflexivity].
  cbn. destruct (dict_mem _ (records c)); [reflexivity|].
  unfold bind, getitem. rewrite Hget. reflexivity.
Qed.

Lemma read_rows_fields (title_field : string) (rows : list row)
    (count : nat) (c : Corpus) :
  field_names (snd (read_rows title_field rows count c)) = field_names c.
Proof.
  revert count c. induction rows as [|r rows IH]; intros count c; simpl;
    [reflexivity|].
  unfold bind. pose proof (read_row_fields title_field r count c) as Hf.
  destruct (read_row title_field r count c) as [[count'|e] c']; simpl in *;
    [rewrite IH|]; assumption.
Qed.

Lemma read_rows_metadata (title_field : string) (rows : list row) :
  forall (count : nat) (c : Corpus),
    index_ok c ->
    forall e, In e (records (snd (read_rows title_field rows count c))) ->
      In e (records c) \/ In (r_metadata (snd e)) rows.
Proof.
  induction rows as [|r rows IH]; intros count c Hok e; simpl; [auto|].
  unfold bind. pose proof (read_row_ok title_field r count c Hok) as Hok'.
  pose proof (read_row_run title_field r count c Hok) as Hrun.
  destruct (dict_get title_field r) as [raw|]; cbv zeta in Hrun;
    rewrite Hrun in *; cbn [fst snd] in *; [|auto].
  intros He. destruct (IH _ _ Hok' e He) as [Hin|Hin]; [|auto].
  cbn [records] in Hin. apply in_app_iff in Hin.
  destruct Hin as [Hin|[<-|[]]]; [auto|]. right. left. reflexivity.
Qed.

Lemma read_metatable_ok (path : string) (fieldnames : list string)
    (rows : list row) (c : Corpus) :
  read_metatable fieldnames rows (Corpus_init path) = (Ret tt, c) ->
  field_names c = fieldnames
  /\ forall e, In e (records c) -> In (r_metadata (snd e)) rows.
Proof.
  unfold read_metatable, bind. cbn.
  destruct (get_title_field fieldnames) as [title_field|]; [|discriminate].
  set (c0 := mkCorpus path [] 0 fieldnames 0).
  assert (Hok0 : index_ok c0) by (split; [constructor | intros k []]).
  pose proof (read_rows_fields title_field rows 0 c0) as Hf.
  pose proof (read_rows_metadata title_field rows 0 c0 Hok0) as Hm.
  destruct (read_rows title_field rows 0 c0) as [[count|e] c1];
    cbn [fst snd] in *; [|discriminate].
  cbn. intros [= <-]. cbn. split; [exact Hf|].
  intros e He. destruct (Hm e He) as [[]|H]. exact H.
Qed.

(** X18. When [main] gets through a table, the match file it writes for
    it starts with the row [match_title] followed by the header of the
    table, and every other row is one of the titles followed by the cells
    of one of the rows of the table; when the rows of the table are as
    long as its header, every row written has one column more than that
    header. *)
Theorem process_file_output_rows (titles : list string) (f : table_file)
    (w w' : World) :
  is_table f = true ->
  process_file titles f w = (Ret tt, w') ->
  exists body,
    dict_get (outfile_name (name f)) (out_files w')
    = Some (("match_title" :: fieldnames f) :: body)
    /\ Forall (fun line => exists t r,
                 line = t :: map snd r /\ In t titles /\ In r (rows f)) body
    /\ (Forall (fun r => List.length r = List.length (fieldnames f)) (rows f)
        -> Forall (fun line => List.length line
                               = 1 + List.length (fieldnames f)) body).
Proof.
  intros Ht. rewrite (process_file_table titles f w Ht).
  destruct (read_metatable (fieldnames f) (rows f) (Corpus_init (path f)))
    as [[[]|e] c] eqn:Hread; [|discriminate].
  destruct (read_metatable_ok _ _ _ _ Hread) as [Hfields Hmeta].
  rewrite match_titles_run.
  destruct (matcher_run (records c) titles) as (accepted & _ & Hacc & Hm).
  destruct (matcher (records c) titles) as [[[[]|e] d] logged];
    cbn [fst snd]; [|discriminate].
  intros [= <-]. cbn [out_files]. unfold cell. cbn [heap].
  rewrite nth_last_cell, dict_get_set_same, Hfields.
  destruct Hm as (_ & -> & _).
  eexists. split; [reflexivity|].
  assert (Hbody : Forall (fun line => exists t r,
                    line = t :: map snd r /\ In t titles /\ In r (rows f))
                   (map (fun tr => fst tr :: map snd (r_metadata (snd tr)))
                        (filter kept accepted))).
  { apply Forall_forall. intros line Hline. apply in_map_iff in Hline.
    destruct Hline as ([t rec] & <- & Hin). apply filter_In in Hin.
    destruct Hin as [Hin _]. rewrite Forall_forall in Hacc.
    destruct (Hacc _ Hin) as (Htitle & _ & key & Hkey).
    exists t, (r_metadata rec). repeat split; [exact Htitle|].
    apply (Hmeta _ Hkey). }
  split; [exact Hbody|].
  intros Hwidth. eapply Forall_impl; [|exact Hbody].
  intros line (t & r & -> & _ & Hr). simpl. rewrite length_map.
  rewrite Forall_forall in Hwidth. rewrite (Hwidth r Hr). reflexivity.
Qed.

Lemma process_file_output_rows_witness :
  let w' := snd (process_file ["moby dick"] Sample.melville_csv world0) in
  is_table Sample.melville_csv = true
  /\ process_file ["moby dick"] Sample.melville_csv world0 = (Ret tt, w')
  /\ exists body,
       dict_get (outfile_name (name Sample.melville_csv)) (out_files w')
       = Some (("match_title" :: fieldnames Sample.melville_csv) :: body).
Proof.
  intros w'.
  assert (H1 : is_table Sample.melville_csv = true) by reflexivity.
  assert (H2 : process_file ["moby dick"] Sample.melville_csv world0
               = (Ret tt, w')) by reflexivity.
  refine (conj H1 (conj H2 _)).
  destruct (process_file_output_rows ["moby dick"] Sample.melville_csv
              world0 w' H1 H2) as (body & Hb & _).
  exists body. exact Hb.
Defined.

(** ** [get_titles] *)

Lemma replace_char_free (old new : ascii) (s : string) :
  old <> new ->
  free_of (fun c => Ascii.eqb c old) (replace_char old new s).
Proof.
  intros Hne. induction s as [|c s IH]; simpl; [trivial|].
  split; [|exact IH].
  destruct (Ascii.eqb_spec c old) as [->|Hc].
  - apply Ascii.eqb_neq. congruence.
  - apply Ascii.eqb_neq. exact Hc.
Qed.

Lemma replace_char_app (old new : ascii) (a b : string) :
  replace_char old new (a ++ b)
  = (replace_char old new a ++ replace_char old new b)%string.
Proof. induction a as [|c a IH]; simpl; [|rewrite IH]; reflexivity. Qed.

Lemma list_getitem_none {A} (l : list A) (i : Z) :
  list_getitem l i = None <-> ~ in_range i (List.length l).
Proof.
  unfold list_getitem, in_range.
  destruct (0 <=? i)%Z eqn:H0.
  - apply Z.leb_le in H0. rewrite nth_error_None. lia.
  - apply Z.leb_gt in H0.
    destruct (- Z.of_nat (List.length l) <=? i)%Z eqn:H1.
    + apply Z.leb_le in H1. rewrite nth_error_None. lia.
    + apply Z.leb_gt in H1. split; [lia | reflexivity].
Qed.

Lemma get_titles_loop_ok (col_num : Z) (rows : list (list string)) :
  forall acc titles,
    get_titles_loop rows col_num acc = inr titles ->
    exists new, titles = acc ++ new /\ Forall2 (title_of_row col_num) rows new.
Proof.
  induction rows as [|r rows IH]; intros acc titles; simpl.
  - intros [= <-]. exists []. rewrite app_nil_r. split; [reflexivity|].
    constructor.
  - destruct (list_getitem r col_num) as [cell_text|] eqn:Hget;
      [|discriminate].
    intros H. destruct (IH _ _ H) as (new & -> & Hnew).
    exists (replace_char "-" " " cell_text :: new).
    rewrite <- app_assoc. split; [reflexivity|].
    constructor; [|exact Hnew]. exists cell_text. auto.
Qed.

Lemma get_titles_loop_error (col_num : Z) (rows : list (list string)) :
  forall acc e,
    get_titles_loop rows col_num acc = inl e
    <-> e = IndexError
        /\ Exists (fun r => ~ in_range col_num (List.length r)) rows.
Proof.
  induction rows as [|r rows IH]; intros acc e; simpl.
  - split; [discriminate|]. intros [_ H]. inversion H.
  - destruct (list_getitem r col_num) as [cell_text|] eqn:Hget.
    + rewrite IH. split; intros [-> H]; (split; [reflexivity|]).
      * apply Exists_cons_tl, H.
      * inversion H as [? ? Hr|? ? Hr]; subst; [|exact Hr].
        apply list_getitem_none in Hr. congruence.
    + apply list_getitem_none in Hget. split.
      * intros [= <-]. split; [reflexivity | apply Exists_cons_hd, Hget].
      * intros [-> _]. reflexivity.
Qed.

(** X19. When [get_titles] returns, it returns one title for each row
    after the header row, if one was announced, in the order of the rows:
    the cell at [col_num], a negative [col_num] counting from the end of
    the row, with every hyphen replaced by a space; no title returned
    holds a hyphen. *)
Theorem get_titles_ok (rows : list (list string)) (col_num : Z)
    (title_header : bool) (titles : list string) :
  get_titles rows col_num title_header = inr titles ->
  Forall2 (title_of_row col_num)
          (if title_header then tl rows else rows) titles
  /\ Forall (free_of (fun c => Ascii.eqb c "-")) titles.
Proof.
  intros H.
  assert (Hloop : exists data,
    data = (if title_header then tl rows else rows)
    /\ get_titles_loop data col_num [] = inr titles).
  { unfold get_titles in H. destruct title_header.
    - destruct rows as [|hd rest]; [discriminate|]. now exists rest.
    - now exists rows. }
  destruct Hloop as (data & <- & Hloop).
  destruct (get_titles_loop_ok _ _ _ _ Hloop) as (new & -> & Hnew).
  split; [exact Hnew|]. cbn [app].
  clear Hloop H.
  induction Hnew as [|r t rs ts (cell_text & _ & ->) _ IH]; [constructor|].
  constructor; [|exact IH]. apply replace_char_free. discriminate.
Qed.

Lemma get_titles_ok_witness :
  get_titles [["title"; "year"]; ["moby-dick"; "1851"]; ["emma"; "1815"]]
             (-2) true
    = inr ["moby dick"; "emma"]
  /\ Forall (free_of (fun c => Ascii.eqb c "-")) ["moby dick"; "emma"].
Proof.
  refine (conj eq_refl _).
  exact (proj2 (get_titles_ok
                  [["title"; "year"]; ["moby-dick"; "1851"]; ["emma"; "1815"]]
                  (-2) true ["moby dick"; "emma"] eq_refl)).
Defined.

(** X20. [get_titles] raises [StopIteration] exactly when a header row is
    announced and the file has no row, and [IndexError] exactly when some
    row after the header has no cell at [col_num], that is when [col_num]
    is not between minus the length of the row and that length less one;
    an empty row does so for every [col_num]. *)
Theorem get_titles_errors (rows : list (list string)) (col_num : Z)
    (title_header : bool) :
  (get_titles rows col_num title_header = inl StopIteration
   <-> title_header = true /\ rows = [])
  /\ (get_titles rows col_num title_header = inl IndexError
      <-> Exists (fun r => ~ in_range col_num (List.length r))
                 (if title_header then tl rows else rows))
  /\ ~ in_range col_num (List.length (@nil string)).
Proof.
  split; [|split].
  - unfold get_titles. destruct title_header.
    + destruct rows as [|hd rest].
      * split; auto.
      * rewrite get_titles_loop_error. split; [intros [H _]|intros [_ H]];
          discriminate H.
    + rewrite get_titles_loop_error. split; [intros [H _]|intros [H _]];
        discriminate H.
  - unfold get_titles. destruct title_header.
    + destruct rows as [|hd rest]; cbn [tl].
      * split; [discriminate | intros H; inversion H].
      * rewrite get_titles_loop_error. tauto.
    + rewrite get_titles_loop_error. tauto.
  - unfold in_range. simpl. lia.
Qed.

(** X21. A hyphen in a title separates words as a space does: the
    significant words of the title made from [a-b] are those made from
    [a] followed by those made from [b]. *)
Theorem hyphen_separates_words (a b : string) :
  search_words (replace_char "-" " " (a ++ "-" ++ b))
  = search_words (replace_char "-" " " a)
    ++ search_words (replace_char "-" " " b).
Proof.
  rewrite replace_char_app.
  change (replace_char "-" " " ("-" ++ b))
    with (String " " (replace_char "-" " " b)).
  unfold search_words. rewrite split_app_space, filter_app. reflexivity.
Qed.

(** ** [confirm] and the start of [main] *)

(** X22. [confirm] skips the lines that, lower-cased and stripped of
    surrounding whitespace, begin neither with [y] nor with [n], and
    answers with the first line that does: [True] for [y], [False] for
    [n]; the lines after it are left unread. *)
Theorem confirm_first_answer (pre rest : list string) (line : string)
    (b : bool) :
  Forall (fun l => verdict l = None) pre ->
  verdict line = Some b ->
  confirm (pre ++ line :: rest) = (Some b, rest).
Proof.
  intros Hpre Hline. induction Hpre as [|l pre Hl _ IH]; cbn [app confirm].
  - unfold verdict in Hline.
    destruct (answer_of line) as [|c s]; [discriminate|].
    destruct c as [[] [] [] [] [] [] [] []]; try discriminate;
      injection Hline as <-; reflexivity.
  - unfold verdict in Hl.
    destruct (answer_of l) as [|c s]; [exact IH|].
    destruct c as [[] [] [] [] [] [] [] []]; try discriminate; exact IH.
Qed.

Lemma confirm_first_answer_witness :
  Forall (fun l => verdict l = None) [""; "maybe"]
  /\ verdict "  No thanks" = Some false
  /\ confirm ([""; "maybe"] ++ "  No thanks" :: ["y"]) = (Some false, ["y"]).
Proof.
  assert (H1 : Forall (fun l => verdict l = None) [""; "maybe"])
    by (repeat constructor).
  assert (H2 : verdict "  No thanks" = Some false) by reflexivity.
  refine (conj H1 (conj H2 _)).
  exact (confirm_first_answer [""; "maybe"] ["y"] "  No thanks" false H1 H2).
Defined.

(** X23. When [bad_matches.csv] exists at the start, a run in which the
    user's first valid answer is a refusal ends before the titles file is
    read and before any table is processed; an acceptance leads to the
    run that takes place when the file does not exist. *)
Theorem main_asks_before_truncating (pre rest : list string)
    (line : string) (b : bool) (title_rows : list (list string))
    (title_col : Z) (title_header : bool) (files : list table_file) :
  Forall (fun l => verdict l = None) pre ->
  verdict line = Some b ->
  main true (pre ++ line :: rest) title_rows title_col title_header files
  = if b then main false [] title_rows title_col title_header files
    else Aborted.
Proof.
  intros Hpre Hline. unfold main.
  assert (Hc : fst (confirm (pre ++ line :: rest)) = Some b).
  { clear - Hpre Hline.
    induction Hpre as [|l pre Hl _ IH]; cbn [app confirm].
    - unfold verdict in Hline.
      destruct (answer_of line) as [|c s]; [discriminate|].
      destruct c as [[] [] [] [] [] [] [] []]; try discriminate;
        injection Hline as <-; reflexivity.
    - unfold verdict in Hl.
      destruct (answer_of l) as [|c s]; [exact IH|].
      destruct c as [[] [] [] [] [] [] [] []]; try discriminate; exact IH. }
  rewrite Hc. destruct b; reflexivity.
Qed.

Lemma main_asks_before_truncating_witness :
  Forall (fun l => verdict l = None) ["what?"]
  /\ verdict "N" = Some false
  /\ main true (["what?"] ++ "N" :: []) [[]] 0 false [Sample.untitled_csv]
     = Aborted.
Proof.
  assert (H1 : Forall (fun l => verdict l = None) ["what?"])
    by (repeat constructor).
  assert (H2 : verdict "N" = Some false) by reflexivity.
  refine (conj H1 (conj H2 _)).
  exact (main_asks_before_truncating ["what?"] [] "N" false [[]] 0 false
           [Sample.untitled_csv] H1 H2).
Defined.
